(** * The text chunker of the import flow ([src/app/src/lib/chunk.ts])

    A shallow embedding of [chunkText] and of the JavaScript string and
    number operations it calls, followed by the properties of the chunker.

    - A JavaScript string is a sequence of UTF-16 code units.
    - A JavaScript [number] is kept abstract behind the interface
      [JsNumber]; the chunker is written once over that interface and run
      on two implementations: [IntNumber] (integer values, the domain the
      chunker's contract documents for [size] and [overlap]) and
      [Float64Number] (IEEE 754 binary64, what the engine computes with).
    - The [while] loop takes a bound on its number of iterations; [None]
      says the loop is still running when the bound is used up. *)

From Stdlib Require Import String Ascii ZArith NArith List Bool Lia Floats.
From Stdlib Require Import DecimalZ.
Import ListNotations.

Open Scope Z_scope.

(** ** JavaScript strings *)

Module JsString.

Definition code_unit := N.
Definition jsstring := list code_unit.

Definition TAB  : code_unit := 9%N.
Definition LF   : code_unit := 10%N.
Definition VT   : code_unit := 11%N.
Definition FF   : code_unit := 12%N.
Definition CR   : code_unit := 13%N.
Definition SP   : code_unit := 32%N.
Definition NBSP : code_unit := 160%N.

(** String literals of the source that hold ASCII characters only. *)
Fixpoint js (s : string) : jsstring :=
  match s with
  | EmptyString => []
  | String c rest => N_of_ascii c :: js rest
  end.

Definition is_empty (s : jsstring) : bool :=
  match s with [] => true | _ :: _ => false end.

(** [Boolean(s)] on a string. *)
Definition to_boolean (s : jsstring) : bool := negb (is_empty s).

(** The result of [ToIntegerOrInfinity] on a number. *)
Inductive integer_or_infinity :=
| NegInfinity
| Integer (z : Z)
| PosInfinity.

(** The clamping of an index argument of [String.prototype.slice]. *)
Definition relative_index (len : nat) (i : integer_or_infinity) : nat :=
  match i with
  | NegInfinity => 0%nat
  | Integer z =>
      if z <? 0 then Z.to_nat (Z.max (Z.of_nat len + z) 0)
      else Z.to_nat (Z.min z (Z.of_nat len))
  | PosInfinity => len
  end.

(** [s.slice(from, to)] *)
Definition slice (s : jsstring) (from to : integer_or_infinity) : jsstring :=
  let len := length s in
  let from' := relative_index len from in
  let to' := relative_index len to in
  firstn (to' - from') (skipn from' s).

(** WhiteSpace and LineTerminator code points, as [trim] strips them. *)
Definition is_white_space (c : code_unit) : bool :=
  ((9 <=? c) && (c <=? 13) || (c =? 32) || (c =? 160) || (c =? 5760)
   || (8192 <=? c) && (c <=? 8202)
   || (c =? 8232) || (c =? 8233) || (c =? 8239) || (c =? 8287)
   || (c =? 12288) || (c =? 65279))%N.

Fixpoint trim_start (s : jsstring) : jsstring :=
  match s with
  | [] => []
  | c :: rest => if is_white_space c then trim_start rest else s
  end.

Definition trim_end (s : jsstring) : jsstring :=
  rev (trim_start (rev s)).

(** [s.trim()] *)
Definition trim (s : jsstring) : jsstring := trim_end (trim_start s).

(** [s.replace(/\r\n/g, "\n")] *)
Fixpoint replace_crlf (s : jsstring) : jsstring :=
  match s with
  | [] => []
  | c :: rest =>
      match rest with
      | d :: rest' =>
          if ((c =? CR) && (d =? LF))%N then LF :: replace_crlf rest'
          else c :: replace_crlf rest
      | [] => [c]
      end
  end.

(** [s.replace(/c/g, " ")] for a single code unit [c]. *)
Definition replace_char (c : code_unit) (s : jsstring) : jsstring :=
  map (fun d => if (d =? c)%N then SP else d) s.

(** The character class [[ \f\v]]. *)
Definition is_space_class (c : code_unit) : bool :=
  ((c =? SP) || (c =? FF) || (c =? VT))%N.

(** [s.replace(/[ \f\v]+/g, " ")]: [in_run] says that the scan is inside
    a match, whose single replacement space is already written. *)
Fixpoint collapse_from (in_run : bool) (s : jsstring) : jsstring :=
  match s with
  | [] => []
  | c :: rest =>
      if is_space_class c then
        if in_run then collapse_from true rest
        else SP :: collapse_from true rest
      else c :: collapse_from false rest
  end.

Definition collapse_spaces (s : jsstring) : jsstring := collapse_from false s.

End JsString.
Import JsString.

(** ** JavaScript numbers *)

(** The operations on [number] that the chunker uses. *)
Class JsNumber (num : Type) : Type := {
  (** an integer literal, or the [length] of a string *)
  of_int : Z -> num;
  (** [a + b] and [a - b] *)
  add : num -> num -> num;
  sub : num -> num -> num;
  (** [a < b], [a <= b] and [a === b] *)
  ltb : num -> num -> bool;
  leb : num -> num -> bool;
  strict_eqb : num -> num -> bool;
  (** [Math.min(a, b)] and [Math.max(a, b)] *)
  math_min : num -> num -> num;
  math_max : num -> num -> num;
  (** [Math.floor(a / b)] *)
  floor_div : num -> num -> num;
  (** [ToIntegerOrInfinity], applied by [slice] to its arguments *)
  to_integer : num -> integer_or_infinity
}.

(** [a >= b] *)
Definition geb {num : Type} `{JsNumber num} (a b : num) : bool := leb b a.

(** Integer-valued numbers, computed exactly.  The chunker's contract
    documents [size] and [overlap] as integers, and every caller passes
    the constants 1200 and 200; a string length is an integer below
    [2^53], a range in which binary64 arithmetic on integers is exact. *)
#[export] Instance IntNumber : JsNumber Z := {
  of_int z := z;
  add := Z.add;
  sub := Z.sub;
  ltb := Z.ltb;
  leb := Z.leb;
  strict_eqb := Z.eqb;
  math_min := Z.min;
  math_max := Z.max;
  floor_div := Z.div;
  to_integer := Integer
}.

(** IEEE 754 binary64 numbers. *)
Module Float64.

(** The integer [z] as a binary64 number, for [|z| < 2^63]; every
    literal and every string length of the chunker is in that range. *)
Definition of_int (z : Z) : float :=
  if z <? 0 then PrimFloat.opp (PrimFloat.of_uint63 (Uint63.of_Z (- z)))
  else PrimFloat.of_uint63 (Uint63.of_Z z).

(** The integer part of [m * 2^e], rounded towards zero. *)
Definition truncate (m : positive) (e : Z) : Z :=
  if 0 <=? e then Z.shiftl (Z.pos m) e else Z.shiftr (Z.pos m) (- e).

Definition to_integer (x : float) : integer_or_infinity :=
  match Prim2SF x with
  | S754_zero _ => Integer 0
  | S754_nan => Integer 0
  | S754_infinity false => PosInfinity
  | S754_infinity true => NegInfinity
  | S754_finite false m e => Integer (truncate m e)
  | S754_finite true m e => Integer (- truncate m e)
  end.

(** [Math.floor(x)]: a number with a fractional part has an exponent
    below 0 and a floor of magnitude at most [2^53]. *)
Definition math_floor (x : float) : float :=
  match Prim2SF x with
  | S754_finite s m e =>
      if 0 <=? e then x
      else
        let q := truncate m e in
        if Z.shiftl q (- e) =? Z.pos m then x
        else if s then of_int (- (q + 1))
        else of_int q
  | _ => x
  end.

Definition floor_div (a b : float) : float := math_floor (PrimFloat.div a b).

Definition is_negative_zero (x : float) : bool :=
  PrimFloat.is_zero x && PrimFloat.get_sign x.

(** [Math.min]: NaN if an argument is NaN, and [-0] below [+0]. *)
Definition math_min (a b : float) : float :=
  if PrimFloat.is_nan a || PrimFloat.is_nan b then PrimFloat.nan
  else if PrimFloat.ltb a b then a
  else if PrimFloat.ltb b a then b
  else if is_negative_zero a then a else b.

(** [Math.max]: NaN if an argument is NaN, and [+0] above [-0]. *)
Definition math_max (a b : float) : float :=
  if PrimFloat.is_nan a || PrimFloat.is_nan b then PrimFloat.nan
  else if PrimFloat.ltb a b then b
  else if PrimFloat.ltb b a then a
  else if is_negative_zero a then b else a.

End Float64.

#[export] Instance Float64Number : JsNumber float := {
  of_int := Float64.of_int;
  add := PrimFloat.add;
  sub := PrimFloat.sub;
  ltb := PrimFloat.ltb;
  leb := PrimFloat.leb;
  strict_eqb := PrimFloat.eqb;
  math_min := Float64.math_min;
  math_max := Float64.math_max;
  floor_div := Float64.floor_div;
  to_integer := Float64.to_integer
}.

(** ** The chunker *)

Section Chunker.

Context {num : Type} `{JsNumber num}.

(** [type ChunkOptions = { size?: number, overlap?: number }];
    [None] is a field left out. *)
Record ChunkOptions : Type := {
  size : option num;
  overlap : option num
}.

(** [x ?? d] *)
Definition nullish (x : option num) (d : num) : num :=
  match x with
  | Some v => v
  | None => d
  end.

(** What a caller can pass for [text]: a string, or [null] or
    [undefined] under a cast. *)
Inductive text_value :=
| Null
| Undefined
| Str (s : jsstring).

(** The four [replace] calls that build [normalized]. *)
Definition normalize (text : jsstring) : jsstring :=
  collapse_spaces
    (replace_char NBSP
       (replace_char TAB
          (replace_crlf text))).

Definition string_length (s : jsstring) : num :=
  of_int (Z.of_nat (length s)).

(** The [while] loop, with at most [fuel] iterations. *)
Fixpoint window_loop (fuel : nat) (normalized : jsstring)
    (size overlap start : num) (chunks : list jsstring)
    : option (list jsstring) :=
  match fuel with
  | O => None
  | S fuel' =>
      if ltb start (string_length normalized) then
        let end_ := math_min (add start size) (string_length normalized) in
        let slice_ := slice normalized (to_integer start) (to_integer end_) in
        let chunks' := chunks ++ [trim slice_] in
        if strict_eqb end_ (string_length normalized) then Some chunks'
        else
          window_loop fuel' normalized size overlap
            (math_max (of_int 0) (sub end_ overlap)) chunks'
      else Some chunks
  end.

(** The overlap after the two clamping statements. *)
Definition clamp_overlap (size overlap : num) : num :=
  let overlap := if ltb overlap (of_int 0) then of_int 0 else overlap in
  if geb overlap size then floor_div size (of_int 4) else overlap.

Definition chunkText (fuel : nat) (text : text_value)
    (options : ChunkOptions) : option (list jsstring) :=
  let size := nullish options.(size) (of_int 1200) in
  let overlap := nullish options.(overlap) (of_int 200) in
  match text with
  | Str ((_ :: _) as text) =>
      if leb size (of_int 0) then Some [text]
      else
        let overlap := clamp_overlap size overlap in
        let normalized := normalize text in
        match window_loop fuel normalized size overlap (of_int 0) [] with
        | Some chunks => Some (filter to_boolean chunks)
        | None => None
        end
  | _ => Some []
  end.

(** The windows [(start, end)] the loop visits, in order: the loop
    above with its cursor recorded instead of the slice. *)
Fixpoint window_bounds (fuel : nat) (normalized : jsstring)
    (size overlap start : num) : option (list (num * num)) :=
  match fuel with
  | O => None
  | S fuel' =>
      if ltb start (string_length normalized) then
        let end_ := math_min (add start size) (string_length normalized) in
        if strict_eqb end_ (string_length normalized) then
          Some [(start, end_)]
        else
          match window_bounds fuel' normalized size overlap
                  (math_max (of_int 0) (sub end_ overlap)) with
          | Some rest => Some ((start, end_) :: rest)
          | None => None
          end
      else Some []
  end.

(** The text of a window, before [trim]. *)
Definition window_text (normalized : jsstring) (w : num * num) : jsstring :=
  slice normalized (to_integer (fst w)) (to_integer (snd w)).

(** The windowing algorithm in the words of the design document: loop
    while [start < L]; [end = min(start + size, L)]; emit the trimmed
    slice unless it is empty; stop if [end == L]; otherwise continue
    from [max(0, end - overlap)]. *)
Fixpoint spec_windowing (fuel : nat) (normalized : jsstring)
    (size overlap start : num) : option (list jsstring) :=
  match fuel with
  | O => None
  | S fuel' =>
      let L := string_length normalized in
      if ltb start L then
        let end_ := math_min (add start size) L in
        let piece := trim (slice normalized (to_integer start) (to_integer end_)) in
        let emit rest := if is_empty piece then rest else piece :: rest in
        if strict_eqb end_ L then Some (emit [])
        else
          match spec_windowing fuel' normalized size overlap
                  (math_max (of_int 0) (sub end_ overlap)) with
          | Some rest => Some (emit rest)
          | None => None
          end
      else Some []
  end.

End Chunker.

Arguments ChunkOptions num : clear implicits.
Arguments Build_ChunkOptions {num} size overlap.

(** [{ size: s, overlap: o }], [{ size: s }] and [{}]. *)
Definition options {num : Type} (s o : num) : ChunkOptions num :=
  {| size := Some s; overlap := Some o |}.
Definition options_size {num : Type} (s : num) : ChunkOptions num :=
  {| size := Some s; overlap := None |}.
Definition no_options {num : Type} : ChunkOptions num :=
  {| size := None; overlap := None |}.

(** The size after its default, and the overlap after its default and
    the two clamping statements. *)
Definition effective_size {num : Type} `{JsNumber num}
    (opts : ChunkOptions num) : num :=
  nullish opts.(size) (of_int 1200).

Definition effective_overlap {num : Type} `{JsNumber num}
    (opts : ChunkOptions num) : num :=
  clamp_overlap (effective_size opts) (nullish opts.(overlap) (of_int 200)).

(** [chunkText] returns [chunks]: the loop ends within some number of
    iterations. *)
Definition returns {num : Type} `{JsNumber num} (text : text_value)
    (opts : ChunkOptions num) (chunks : list jsstring) : Prop :=
  exists fuel, chunkText fuel text opts = Some chunks.

(** The number of code units of the argument; [null] and [undefined]
    have none. *)
Definition text_length (text : text_value) : nat :=
  match text with
  | Str s => length s
  | _ => 0%nat
  end.

(** A chain of windows over a text of length [L] that starts at [start]:
    every window ends at [min(start + size, L)], the next one starts
    [ov] before that end, and the last one ends at [L]. *)
Fixpoint windowed (size ov L start : Z) (bs : list (Z * Z)) : Prop :=
  match bs with
  | [] => False
  | (s, e) :: rest =>
      s = start /\ e = Z.min (start + size) L /\
      match rest with
      | [] => e = L
      | _ :: _ => e < L /\ windowed size ov L (e - ov) rest
      end
  end.

(** Windows that follow one another from [start] on, each starting where
    the one before it ends. *)
Fixpoint contiguous (start : Z) (bs : list (Z * Z)) : Prop :=
  match bs with
  | [] => True
  | (s, e) :: rest => s = start /\ s < e /\ contiguous e rest
  end.

(** The pair CR LF occurs in [s]. *)
Fixpoint has_crlf (s : jsstring) : bool :=
  match s with
  | [] => false
  | c :: rest =>
      match rest with
      | d :: _ => ((c =? CR) && (d =? LF))%N || has_crlf rest
      | [] => false
      end
  end.

(** Two spaces in a row occur in [s]. *)
Fixpoint has_double_space (s : jsstring) : bool :=
  match s with
  | [] => false
  | c :: rest =>
      match rest with
      | d :: _ => ((c =? SP) && (d =? SP))%N || has_double_space rest
      | [] => false
      end
  end.

(** No tab, non-breaking space, form feed or vertical tab, and no two
    spaces in a row: what the last three [replace] calls leave. *)
Definition spaces_normal (s : jsstring) : Prop :=
  Forall (fun c => c <> TAB /\ c <> NBSP /\ c <> FF /\ c <> VT) s
  /\ has_double_space s = false.

(** A space, or what the replacements turn into one. *)
Definition is_blank (c : code_unit) : bool :=
  ((c =? SP) || (c =? TAB) || (c =? NBSP) || (c =? FF) || (c =? VT))%N.

(** The normalization in the words of the design document, as one pass
    from left to right: CR LF becomes LF; a tab or a non-breaking space
    counts as a space; a run of spaces, form feeds and vertical tabs
    becomes one space ([in_run] says the pass is inside such a run); every
    other code unit, a newline included, is kept. *)
Fixpoint normalize_spec (in_run : bool) (s : jsstring) : jsstring :=
  match s with
  | [] => []
  | c :: rest =>
      if is_blank c then
        if in_run then normalize_spec true rest
        else SP :: normalize_spec true rest
      else
        match rest with
        | d :: rest' =>
            if ((c =? CR) && (d =? LF))%N then LF :: normalize_spec false rest'
            else c :: normalize_spec false rest
        | [] => [c]
        end
  end.

(** [c] is a run of consecutive code units of [s]. *)
Definition substring_of (c s : jsstring) : Prop :=
  exists pre post, s = pre ++ c ++ post.

(** A binary64 number, as the specification of floating-point numbers
    sees it, is not negative: NaN, or a zero, an infinity or a finite
    number with a clear sign bit. *)
Definition sign_clear (r : spec_float) : Prop :=
  match r with
  | S754_zero s | S754_infinity s | S754_finite s _ _ => s = false
  | S754_nan => True
  end.

(** The binary64 number [p * 2^-1074], a multiple of [Number.MIN_VALUE],
    built from its mantissa; for [p < 2^53] the mantissa and the exponent
    are those of the number itself. *)
Definition subnormal (p : positive) : float :=
  SF2Prim (S754_finite false p (-1074)).

(** The code units of [s] that are not white space, in order: what
    [trim] and the replacements never touch. *)
Definition content (s : jsstring) : jsstring :=
  filter (fun c => negb (is_white_space c)) s.



(** ** The import page ([src/app/src/app/import/page.tsx]) *)

Definition UNDERSCORE : code_unit := 95%N.
Definition MINUS : code_unit := 45%N.




(** [s.replace(/[cls]+/g, by)] for a class [cls] of code units; [in_run]
    says that the scan is inside a match, whose replacement is already
    written. *)
Fixpoint replace_runs (cls : code_unit -> bool) (by_ : jsstring)
    (in_run : bool) (s : jsstring) : jsstring :=
  match s with
  | [] => []
  | c :: rest =>
      if cls c then
        if in_run then replace_runs cls by_ true rest
        else by_ ++ replace_runs cls by_ true rest
      else c :: replace_runs cls by_ false rest
  end.

(** The class [[a-z0-9_]]. *)
Definition is_collection_char (c : code_unit) : bool :=
  ((97 <=? c) && (c <=? 122) || (48 <=? c) && (c <=? 57) || (c =? 95))%N.

(** The class [[a-zA-Z0-9]]. *)
Definition is_alphanumeric (c : code_unit) : bool :=
  ((97 <=? c) && (c <=? 122) || (65 <=? c) && (c <=? 90)
   || (48 <=? c) && (c <=? 57))%N.

(** The decimal digits of a number, as a template literal writes an
    integer of magnitude below [10^21]: an array index, a time in
    milliseconds. *)
Fixpoint digits (u : Decimal.uint) : jsstring :=
  match u with
  | Decimal.Nil => []
  | Decimal.D0 u => 48%N :: digits u
  | Decimal.D1 u => 49%N :: digits u
  | Decimal.D2 u => 50%N :: digits u
  | Decimal.D3 u => 51%N :: digits u
  | Decimal.D4 u => 52%N :: digits u
  | Decimal.D5 u => 53%N :: digits u
  | Decimal.D6 u => 54%N :: digits u
  | Decimal.D7 u => 55%N :: digits u
  | Decimal.D8 u => 56%N :: digits u
  | Decimal.D9 u => 57%N :: digits u
  end.

Definition number_to_string (z : Z) : jsstring :=
  match Z.to_int z with
  | Decimal.Pos u => digits u
  | Decimal.Neg u => MINUS :: digits u
  end.

(** [fileName.replace(/[^a-zA-Z0-9]/g, "_")] *)
Definition sanitize_file_name (fileName : jsstring) : jsstring :=
  map (fun c => if is_alphanumeric c then c else UNDERSCORE) fileName.

(** [generateChunkId]; [timestamp] is what [Date.now()] returns. *)
Definition generateChunkId (fileName : jsstring) (chunkIndex timestamp : Z)
    : jsstring :=
  sanitize_file_name fileName ++ js "_chunk_" ++ number_to_string chunkIndex
  ++ [UNDERSCORE] ++ number_to_string timestamp.

(** The [ids] that [handleUpload] sends with the chunks of a file:
    [file.chunks.map((_, idx) => generateChunkId(file.name, idx))], where
    [clock idx] is the time that call number [idx] reads. *)
Definition chunk_ids (fileName : jsstring) (chunks : list jsstring)
    (clock : nat -> Z) : list jsstring :=
  map (fun idx => generateChunkId fileName (Z.of_nat idx) (clock idx))
    (seq 0 (length chunks)).


Section ImportPage.

(** [String.prototype.toLowerCase], left open: the properties below hold
    whatever it maps a string to. *)
Variable toLowerCase : jsstring -> jsstring.



(** The collection name [handleCreateProfessional] makes of the name
    typed in: lower case, runs of white space as one underscore, and
    nothing else than [[a-z0-9_]].  The handler computes it only for a
    name that passes its first test, [!newProfessionalName.trim()]: a
    name whose trimming is empty is answered with "Please enter a
    professional name" and is never sanitized. *)
Definition sanitizedCollectionName (newProfessionalName : jsstring)
    : jsstring :=
  filter is_collection_char
    (replace_runs is_white_space [UNDERSCORE] false
       (toLowerCase newProfessionalName)).

End ImportPage.

(** Lower case on the letters A to Z only, an instance of [toLowerCase]
    on the strings that hold no other letter. *)
Definition ascii_lower (s : jsstring) : jsstring :=
  map (fun c => if ((65 <=? c) && (c <=? 90))%N then (c + 32)%N else c) s.


(** * Properties *)

(** Names the size and the overlap that [chunkText] computes first. *)
Ltac name_effective opts :=
  change (nullish opts.(size) (of_int 1200)) with (effective_size opts);
  try change (clamp_overlap (effective_size opts)
                (nullish opts.(overlap) (of_int 200)))
        with (effective_overlap opts).

(** ** The loop over any implementation of numbers *)

Section ChunkerFacts.

Context {num : Type} `{JsNumber num}.

Lemma window_loop_trace (normalized : jsstring) (size overlap : num) :
  forall fuel start chunks,
    window_loop fuel normalized size overlap start chunks =
    match window_bounds fuel normalized size overlap start with
    | Some bs =>
        Some (chunks ++ map (fun w => trim (window_text normalized w)) bs)
    | None => None
    end.
Proof.
  induction fuel as [|fuel IH]; intros start chunks; simpl; [reflexivity|].
  destruct (ltb start (string_length normalized)).
  - destruct (strict_eqb _ _); [reflexivity|].
    rewrite IH.
    destruct (window_bounds fuel normalized size overlap _); [|reflexivity].
    simpl. now rewrite <- app_assoc.
  - now rewrite app_nil_r.
Qed.

Lemma window_bounds_more_fuel (normalized : jsstring) (size overlap : num) :
  forall fuel start bs extra,
    window_bounds fuel normalized size overlap start = Some bs ->
    window_bounds (fuel + extra) normalized size overlap start = Some bs.
Proof.
  induction fuel as [|fuel IH]; intros start bs extra; simpl; [discriminate|].
  destruct (ltb start (string_length normalized)); [|trivial].
  destruct (strict_eqb _ _); [trivial|].
  destruct (window_bounds fuel normalized size overlap _) as [rest|] eqn:E;
    [|discriminate].
  intros [= <-]. now rewrite (IH _ _ extra E).
Qed.

Lemma chunkText_more_fuel (text : text_value) (opts : ChunkOptions num) :
  forall fuel extra chunks,
    chunkText fuel text opts = Some chunks ->
    chunkText (fuel + extra) text opts = Some chunks.
Proof.
  intros fuel extra chunks. unfold chunkText.
  destruct text as [| |[|c s]]; trivial.
  destruct (leb _ _); trivial.
  rewrite !window_loop_trace.
  destruct (window_bounds fuel _ _ _ _) as [bs|] eqn:E; [|discriminate].
  now rewrite (window_bounds_more_fuel _ _ _ _ _ _ extra E).
Qed.

Lemma returns_functional (text : text_value) (opts : ChunkOptions num) :
  forall chunks chunks',
    returns text opts chunks -> returns text opts chunks' -> chunks = chunks'.
Proof.
  intros chunks chunks' [f Hf] [f' Hf'].
  apply (chunkText_more_fuel _ _ _ f') in Hf.
  apply (chunkText_more_fuel _ _ _ f) in Hf'.
  rewrite Nat.add_comm in Hf'. congruence.
Qed.

Lemma filter_emit (normalized : jsstring) (w : num * num) rest :
  filter to_boolean (trim (window_text normalized w) :: rest) =
  if is_empty (trim (window_text normalized w)) then filter to_boolean rest
  else trim (window_text normalized w) :: filter to_boolean rest.
Proof.
  simpl. unfold to_boolean.
  now destruct (is_empty (trim (window_text normalized w))).
Qed.

Lemma windowing_refines_spec (normalized : jsstring) (size overlap : num) :
  forall fuel start,
    match window_loop fuel normalized size overlap start [] with
    | Some chunks => Some (filter to_boolean chunks)
    | None => None
    end = spec_windowing fuel normalized size overlap start.
Proof.
  intros fuel start. rewrite window_loop_trace. simpl app.
  revert start. induction fuel as [|fuel IH]; intros start; simpl;
    [reflexivity|].
  destruct (ltb start (string_length normalized)); [|reflexivity].
  destruct (strict_eqb _ _).
  - simpl map. now rewrite filter_emit.
  - rewrite <- IH.
    destruct (window_bounds fuel normalized size overlap _); [|reflexivity].
    simpl map. now rewrite filter_emit.
Qed.

Lemma chunkText_passthrough (fuel : nat) (c : code_unit) (text : jsstring)
    (opts : ChunkOptions num) :
  leb (effective_size opts) (of_int 0) = true ->
  chunkText fuel (Str (c :: text)) opts = Some [c :: text].
Proof.
  intros Hsize. unfold chunkText. name_effective opts. now rewrite Hsize.
Qed.

Lemma chunkText_windowing_path (fuel : nat) (c : code_unit)
    (text : jsstring) (opts : ChunkOptions num) :
  leb (effective_size opts) (of_int 0) = false ->
  chunkText fuel (Str (c :: text)) opts =
  match window_bounds fuel (normalize (c :: text)) (effective_size opts)
          (effective_overlap opts) (of_int 0) with
  | Some bs =>
      Some (filter to_boolean
              (map (fun w => trim (window_text (normalize (c :: text)) w))
                 bs))
  | None => None
  end.
Proof.
  intros Hsize. unfold chunkText. name_effective opts.
  rewrite Hsize, window_loop_trace.
  now destruct (window_bounds _ _ _ _ _).
Qed.

(** A cursor that the loop maps to itself is never left. *)
Lemma window_bounds_stuck (normalized : jsstring) (size overlap start : num) :
  ltb start (string_length normalized) = true ->
  strict_eqb (math_min (add start size) (string_length normalized))
    (string_length normalized) = false ->
  math_max (of_int 0)
    (sub (math_min (add start size) (string_length normalized)) overlap)
  = start ->
  forall fuel, window_bounds fuel normalized size overlap start = None.
Proof.
  intros Hlt Hne Hback. induction fuel as [|fuel IH]; [reflexivity|].
  cbn [window_bounds]. rewrite Hlt, Hne, Hback, IH. reflexivity.
Qed.

End ChunkerFacts.

(** ** Strings: [slice] and [trim] *)

Lemma substring_of_refl (s : jsstring) : substring_of s s.
Proof. exists [], []. now rewrite app_nil_r. Qed.

Lemma substring_of_trans (a b c : jsstring) :
  substring_of a b -> substring_of b c -> substring_of a c.
Proof.
  intros (p & q & ->) (p' & q' & ->).
  exists (p' ++ p), (q ++ q'). now rewrite <- !app_assoc.
Qed.

Lemma substring_of_length (c s : jsstring) :
  substring_of c s -> (length c <= length s)%nat.
Proof. intros (p & q & ->). rewrite !length_app. lia. Qed.

Lemma slice_substring (s : jsstring) (from to : integer_or_infinity) :
  substring_of (slice s from to) s.
Proof.
  unfold slice.
  set (a := relative_index (length s) from).
  set (n := (relative_index (length s) to - a)%nat).
  exists (firstn a s), (skipn n (skipn a s)).
  now rewrite (firstn_skipn n), (firstn_skipn a).
Qed.

Lemma slice_integers (s : jsstring) (from to : Z) :
  0 <= from <= to -> to <= Z.of_nat (length s) ->
  slice s (Integer from) (Integer to) =
  firstn (Z.to_nat (to - from)) (skipn (Z.to_nat from) s).
Proof.
  intros Hf Ht. unfold slice, relative_index.
  destruct (Z.ltb_spec from 0), (Z.ltb_spec to 0); try lia.
  rewrite !Z.min_l by lia. f_equal. lia.
Qed.

Lemma length_slice_integers (s : jsstring) (from to : Z) :
  0 <= from <= to ->
  Z.of_nat (length (slice s (Integer from) (Integer to))) <= to - from.
Proof.
  intros Hf. unfold slice, relative_index.
  destruct (Z.ltb_spec from 0), (Z.ltb_spec to 0); try lia.
  rewrite length_firstn. lia.
Qed.

Lemma trim_start_split (s : jsstring) :
  exists pre, s = pre ++ trim_start s.
Proof.
  induction s as [|c s [pre IH]]; simpl.
  - now exists [].
  - destruct (is_white_space c).
    + exists (c :: pre). simpl. now f_equal.
    + now exists [].
Qed.

Lemma trim_start_idem (s : jsstring) :
  trim_start (trim_start s) = trim_start s.
Proof.
  induction s as [|c s IH]; simpl; [reflexivity|].
  destruct (is_white_space c) eqn:E; [exact IH|].
  simpl. now rewrite E.
Qed.

Lemma trim_start_keeps_last (l : jsstring) (c : code_unit) :
  is_white_space c = false -> exists u, trim_start (l ++ [c]) = u ++ [c].
Proof.
  intros Hc. induction l as [|d l [u IH]]; simpl.
  - rewrite Hc. now exists [].
  - destruct (is_white_space d).
    + now exists u.
    + now exists (d :: l).
Qed.

Lemma trim_substring (s : jsstring) : substring_of (trim s) s.
Proof.
  unfold trim, trim_end.
  destruct (trim_start_split s) as [pre Hpre].
  destruct (trim_start_split (rev (trim_start s))) as [pre' Hpre'].
  exists pre, (rev pre').
  rewrite <- rev_app_distr, <- Hpre', rev_involutive. exact Hpre.
Qed.

Lemma length_trim (s : jsstring) : (length (trim s) <= length s)%nat.
Proof. apply substring_of_length, trim_substring. Qed.

Lemma trim_start_trim (s : jsstring) : trim_start (trim s) = trim s.
Proof.
  unfold trim, trim_end.
  destruct (trim_start s) as [|c t] eqn:E; [reflexivity|].
  assert (Hc : is_white_space c = false).
  { assert (Hi := trim_start_idem s). rewrite E in Hi. simpl in Hi.
    destruct (is_white_space c); [|reflexivity].
    exfalso. destruct (trim_start_split t) as [pre Hp].
    apply (f_equal (@length _)) in Hi. apply (f_equal (@length _)) in Hp.
    rewrite length_app in Hp. simpl in Hi. lia. }
  simpl rev.
  destruct (trim_start_keeps_last (rev t) c Hc) as [u ->].
  rewrite rev_app_distr. simpl. now rewrite Hc.
Qed.

Lemma trim_idem (s : jsstring) : trim (trim s) = trim s.
Proof.
  unfold trim at 1. rewrite trim_start_trim.
  unfold trim_end, trim, trim_end.
  now rewrite rev_involutive, trim_start_idem.
Qed.

(** ** Strings: the four replacements *)

Lemma replace_crlf_cons (c d : code_unit) (s : jsstring) :
  replace_crlf (c :: d :: s) =
  if ((c =? CR) && (d =? LF))%N then LF :: replace_crlf s
  else c :: replace_crlf (d :: s).
Proof. reflexivity. Qed.

Lemma has_crlf_cons (c d : code_unit) (s : jsstring) :
  has_crlf (c :: d :: s) = ((c =? CR) && (d =? LF))%N || has_crlf (d :: s).
Proof. reflexivity. Qed.

Lemma has_double_space_cons (c d : code_unit) (s : jsstring) :
  has_double_space (c :: d :: s) =
  ((c =? SP) && (d =? SP))%N || has_double_space (d :: s).
Proof. reflexivity. Qed.

Lemma replace_crlf_fixed (s : jsstring) :
  has_crlf s = false -> replace_crlf s = s.
Proof.
  induction s as [|c s IH]; [reflexivity|].
  destruct s as [|d s]; [reflexivity|].
  rewrite has_crlf_cons, replace_crlf_cons. intros Hs.
  apply orb_false_iff in Hs as [-> Hs]. now rewrite (IH Hs).
Qed.

Lemma length_replace_crlf (s : jsstring) :
  (length (replace_crlf s) <= length s)%nat.
Proof.
  enough (Hboth : (length (replace_crlf s) <= length s)%nat /\
                  forall c, (length (replace_crlf (c :: s)) <= S (length s))%nat)
    by apply Hboth.
  induction s as [|d s [IH1 IH2]]; [split; [|intros c]; simpl; lia|].
  split; [apply IH2|].
  intros c. rewrite replace_crlf_cons.
  destruct ((c =? CR) && (d =? LF))%N; cbn [length]; [lia|].
  specialize (IH2 d). lia.
Qed.

Lemma replace_crlf_nonempty (c : code_unit) (s : jsstring) :
  replace_crlf (c :: s) <> [].
Proof.
  destruct s as [|d s]; [discriminate|]. rewrite replace_crlf_cons.
  destruct ((c =? CR) && (d =? LF))%N; discriminate.
Qed.

Lemma replace_char_fixed (c : code_unit) (s : jsstring) :
  Forall (fun d => d <> c) s -> replace_char c s = s.
Proof.
  unfold replace_char. induction 1 as [|d s Hd _ IH]; simpl; [reflexivity|].
  rewrite IH. apply N.eqb_neq in Hd. now rewrite Hd.
Qed.

Lemma replace_char_removes (c : code_unit) (s : jsstring) :
  c <> SP -> Forall (fun d => d <> c) (replace_char c s).
Proof.
  intros Hc. unfold replace_char. apply Forall_map, Forall_forall.
  intros d _. destruct (N.eqb_spec d c); congruence.
Qed.

Lemma replace_char_keeps (P : code_unit -> Prop) (c : code_unit) (s : jsstring) :
  P SP -> Forall P s -> Forall P (replace_char c s).
Proof.
  intros HP Hs. unfold replace_char. apply Forall_map.
  revert Hs. apply Forall_impl. intros d Hd. now destruct (d =? c)%N.
Qed.

Lemma is_space_class_false (c : code_unit) :
  is_space_class c = false -> c <> SP /\ c <> FF /\ c <> VT.
Proof.
  unfold is_space_class. intros Hc.
  apply orb_false_iff in Hc as [Hc Hv]. apply orb_false_iff in Hc as [Hs Hf].
  now rewrite !N.eqb_neq in *.
Qed.

Lemma collapse_from_keeps (P : code_unit -> Prop) (s : jsstring) :
  P SP -> Forall P s -> forall b, Forall P (collapse_from b s).
Proof.
  intros HP. induction 1 as [|c s Hc _ IH]; intros b; simpl; [constructor|].
  destruct (is_space_class c); [destruct b|]; auto.
Qed.

Lemma collapse_from_removes (s : jsstring) :
  forall b, Forall (fun c => c <> FF /\ c <> VT) (collapse_from b s).
Proof.
  induction s as [|c s IH]; intros b; simpl; [constructor|].
  destruct (is_space_class c) eqn:E.
  - destruct b; [apply IH|]. constructor; [|apply IH]. now split.
  - constructor; [|apply IH]. now apply is_space_class_false in E.
Qed.

Lemma collapse_in_run_head (s : jsstring) :
  match collapse_from true s with
  | c :: _ => c <> SP
  | [] => True
  end.
Proof.
  induction s as [|c s IH]; simpl; [exact I|].
  destruct (is_space_class c) eqn:E; [exact IH|].
  now apply is_space_class_false in E.
Qed.

Lemma collapse_no_double_space (s : jsstring) :
  forall b, has_double_space (collapse_from b s) = false.
Proof.
  induction s as [|c s IH]; intros b; [reflexivity|].
  cbn [collapse_from].
  destruct (is_space_class c) eqn:E; [destruct b; [apply IH|]|].
  - assert (Hh := collapse_in_run_head s). specialize (IH true).
    destruct (collapse_from true s) as [|d r]; [reflexivity|].
    rewrite has_double_space_cons, IH.
    apply N.eqb_neq in Hh. now rewrite Hh, andb_false_r.
  - apply is_space_class_false in E as (Hs & _). specialize (IH false).
    destruct (collapse_from false s) as [|d r]; [reflexivity|].
    rewrite has_double_space_cons, IH.
    apply N.eqb_neq in Hs. now rewrite Hs.
Qed.

Lemma collapse_from_fixed (s : jsstring) :
  Forall (fun c => c <> FF /\ c <> VT) s ->
  has_double_space s = false ->
  forall b,
    (b = true -> match s with c :: _ => c <> SP | [] => True end) ->
    collapse_from b s = s.
Proof.
  induction 1 as [|c s [Hf Hv] _ IH]; intros Hd b Hb; [reflexivity|].
  assert (Hd' : has_double_space s = false /\
                (c = SP -> match s with d :: _ => d <> SP | [] => True end)).
  { cbn [has_double_space] in Hd. destruct s as [|d s]; [now split|].
    apply orb_false_iff in Hd as [Hcd Hd]. split; [exact Hd|].
    intros ->. rewrite N.eqb_refl in Hcd. now apply N.eqb_neq. }
  destruct Hd' as [Hds Hnext]. cbn [collapse_from].
  destruct (is_space_class c) eqn:E.
  - assert (c = SP) as ->.
    { unfold is_space_class in E. rewrite !orb_true_iff, !N.eqb_eq in E.
      tauto. }
    destruct b; [now exfalso; apply Hb|].
    f_equal. apply IH; [exact Hds|]. intros _. now apply Hnext.
  - f_equal. apply IH; [exact Hds|discriminate].
Qed.

Lemma length_collapse_from (s : jsstring) :
  forall b, (length (collapse_from b s) <= length s)%nat.
Proof.
  induction s as [|c s IH]; intros b; simpl; [lia|].
  pose proof (IH true). pose proof (IH false).
  destruct (is_space_class c); [destruct b|]; simpl; lia.
Qed.

Lemma collapse_spaces_nonempty (c : code_unit) (s : jsstring) :
  collapse_spaces (c :: s) <> [].
Proof.
  unfold collapse_spaces. simpl. destruct (is_space_class c); discriminate.
Qed.

Lemma normalize_spaces_normal (text : jsstring) :
  spaces_normal (normalize text).
Proof.
  unfold normalize, collapse_spaces. split; [|apply collapse_no_double_space].
  assert (Ht : Forall (fun c => c <> TAB)
                 (replace_char NBSP (replace_char TAB (replace_crlf text)))).
  { apply replace_char_keeps; [discriminate|].
    apply replace_char_removes. discriminate. }
  assert (Hn : Forall (fun c => c <> NBSP)
                 (replace_char NBSP (replace_char TAB (replace_crlf text)))).
  { apply replace_char_removes. discriminate. }
  apply (collapse_from_keeps (fun c => c <> TAB)) with (b := false) in Ht;
    [|discriminate].
  apply (collapse_from_keeps (fun c => c <> NBSP)) with (b := false) in Hn;
    [|discriminate].
  assert (Hr := collapse_from_removes
                  (replace_char NBSP (replace_char TAB (replace_crlf text)))
                  false).
  rewrite Forall_forall in *. intros c Hc.
  specialize (Ht c Hc). specialize (Hn c Hc). specialize (Hr c Hc). tauto.
Qed.

Lemma normalize_fixed (s : jsstring) :
  spaces_normal s -> has_crlf s = false -> normalize s = s.
Proof.
  intros [Hall Hd] Hc. unfold normalize, collapse_spaces.
  rewrite (replace_crlf_fixed s Hc).
  rewrite (replace_char_fixed TAB s), (replace_char_fixed NBSP s).
  - apply collapse_from_fixed; [|exact Hd|discriminate].
    revert Hall. apply Forall_impl. tauto.
  - revert Hall. apply Forall_impl. tauto.
  - revert Hall. apply Forall_impl. tauto.
Qed.

Lemma length_normalize (text : jsstring) :
  (length (normalize text) <= length text)%nat.
Proof.
  unfold normalize, collapse_spaces.
  etransitivity; [apply length_collapse_from|].
  unfold replace_char. rewrite !length_map. apply length_replace_crlf.
Qed.

Lemma normalize_nonempty (c : code_unit) (text : jsstring) :
  normalize (c :: text) <> [].
Proof.
  unfold normalize.
  destruct (replace_crlf (c :: text)) as [|d r] eqn:E.
  - now apply replace_crlf_nonempty in E.
  - apply collapse_spaces_nonempty.
Qed.

Lemma normalize_length_pos (c : code_unit) (text : jsstring) :
  0 < Z.of_nat (length (normalize (c :: text))).
Proof.
  assert (Hne := normalize_nonempty c text).
  destruct (normalize (c :: text)); [congruence|simpl; lia].
Qed.

Lemma has_double_space_app (a b : jsstring) :
  has_double_space (a ++ b) = false ->
  has_double_space a = false /\ has_double_space b = false.
Proof.
  induction a as [|c a IH]; [now split|].
  destruct a as [|d a].
  - destruct b as [|e b]; [now split|].
    change ([c] ++ e :: b) with (c :: e :: b).
    rewrite has_double_space_cons.
    intros Hs. apply orb_false_iff in Hs as [_ Hs]. now split.
  - change ((c :: d :: a) ++ b) with (c :: d :: (a ++ b)).
    change ((d :: a) ++ b) with (d :: (a ++ b)) in IH.
    rewrite !has_double_space_cons.
    intros Hs. apply orb_false_iff in Hs as [Hcd Hs].
    destruct (IH Hs) as [Ha Hb]. split; [|exact Hb].
    now rewrite Hcd, Ha.
Qed.

Lemma spaces_normal_substring (c s : jsstring) :
  substring_of c s -> spaces_normal s -> spaces_normal c.
Proof.
  intros (p & q & ->) [Hall Hd]. split.
  - apply Forall_app in Hall as [_ Hall]. now apply Forall_app in Hall as [Hall _].
  - apply has_double_space_app in Hd as [_ Hd].
    now apply has_double_space_app in Hd as [Hd _].
Qed.

(** ** The loop on integers *)

Lemma window_bounds_int_step (fuel : nat) (n : jsstring) (size ov start : Z) :
  window_bounds (S fuel) n size ov start =
  if start <? Z.of_nat (length n) then
    if Z.min (start + size) (Z.of_nat (length n)) =? Z.of_nat (length n) then
      Some [(start, Z.min (start + size) (Z.of_nat (length n)))]
    else
      match window_bounds fuel n size ov
              (Z.max 0 (Z.min (start + size) (Z.of_nat (length n)) - ov)) with
      | Some rest =>
          Some ((start, Z.min (start + size) (Z.of_nat (length n))) :: rest)
      | None => None
      end
  else Some [].
Proof. reflexivity. Qed.

Lemma clamp_overlap_int (size ov : Z) :
  0 < size -> 0 <= clamp_overlap size ov < size.
Proof.
  intros Hs. unfold clamp_overlap, geb. cbn.
  destruct (Z.ltb_spec ov 0).
  - destruct (Z.leb_spec size 0); [|lia].
    split; [apply Z.div_pos; lia|apply Z.div_lt_upper_bound; lia].
  - destruct (Z.leb_spec size ov); [|lia].
    split; [apply Z.div_pos; lia|apply Z.div_lt_upper_bound; lia].
Qed.

Section IntegerWindows.

Variables (n : jsstring) (size ov : Z).
Hypothesis ov_range : 0 <= ov < size.

Let L := Z.of_nat (length n).

Lemma window_bounds_int :
  forall fuel start,
    0 <= start < L -> L - start <= Z.of_nat fuel ->
    exists bs,
      window_bounds fuel n size ov start = Some bs
      /\ windowed size ov L start bs.
Proof.
  induction fuel as [|fuel IH]; intros start Hstart Hfuel; [lia|].
  rewrite window_bounds_int_step. fold L.
  destruct (Z.ltb_spec start L); [|lia].
  destruct (Z.eqb_spec (Z.min (start + size) L) L) as [He|He].
  - eexists. split; [reflexivity|]. simpl. auto.
  - assert (Hend : Z.min (start + size) L = start + size) by lia.
    rewrite Hend in *. rewrite Z.max_r by lia.
    destruct (IH (start + size - ov)) as (rest & -> & Hrest); [lia|lia|].
    eexists. split; [reflexivity|].
    destruct rest as [|w rest]; [destruct Hrest|].
    cbn [windowed]. rewrite Hend. repeat split; try lia. exact Hrest.
Qed.

Lemma windowed_in_range :
  forall bs start,
    0 <= start < L -> windowed size ov L start bs ->
    Forall (fun w => 0 <= fst w < snd w /\ snd w <= L
                     /\ snd w - fst w <= size) bs.
Proof.
  induction bs as [|[s e] bs IH]; intros start Hstart; [constructor|].
  cbn [windowed]. intros (-> & -> & Hrest).
  constructor; [simpl; lia|].
  destruct bs as [|w bs]; [constructor|].
  destruct Hrest as [Hlt Hrest].
  apply (IH (Z.min (start + size) L - ov)); [lia|exact Hrest].
Qed.

Lemma windowed_last_end :
  forall bs start,
    windowed size ov L start bs -> snd (last bs (0, 0)) = L.
Proof.
  induction bs as [|[s e] bs IH]; intros start; [intros []|].
  cbn [windowed]. intros (-> & -> & Hrest).
  destruct bs as [|w bs]; [exact Hrest|].
  destruct Hrest as [_ Hrest].
  change (last (_ :: w :: bs) (0, 0)) with (last (w :: bs) (0, 0)).
  exact (IH _ Hrest).
Qed.

End IntegerWindows.

Lemma windowed_concat (n : jsstring) (size : Z) :
  0 < size ->
  forall bs start,
    0 <= start < Z.of_nat (length n) ->
    windowed size 0 (Z.of_nat (length n)) start bs ->
    concat (map (window_text n) bs) = skipn (Z.to_nat start) n.
Proof.
  intros Hsize.
  induction bs as [|[s e] bs IH]; intros start Hstart; [intros []|].
  cbn [windowed]. intros (-> & -> & Hrest).
  cbn [map concat]. unfold window_text at 1. cbn [fst snd to_integer IntNumber].
  rewrite slice_integers by lia.
  destruct bs as [|w bs].
  - rewrite Hrest. cbn [map concat]. rewrite app_nil_r.
    apply firstn_all2. rewrite length_skipn. lia.
  - destruct Hrest as [Hlt Hrest]. rewrite Z.sub_0_r in Hrest.
    rewrite (IH (Z.min (start + size) (Z.of_nat (length n)))) by (lia || exact Hrest).
    replace (Z.to_nat (Z.min (start + size) (Z.of_nat (length n))))
      with (Z.to_nat (Z.min (start + size) (Z.of_nat (length n)) - start)
            + Z.to_nat start)%nat by lia.
    rewrite <- skipn_skipn. apply firstn_skipn.
Qed.

(** On a non-empty text and a positive integer size, the loop ends within
    as many iterations as the text has code units, and its windows form a
    chain from 0 to the length of the normalized text. *)
Lemma chunkText_int_windows (c : code_unit) (text : jsstring)
    (opts : ChunkOptions Z) :
  0 < effective_size opts ->
  exists bs,
    windowed (effective_size opts) (effective_overlap opts)
      (Z.of_nat (length (normalize (c :: text)))) 0 bs
    /\ forall extra,
         window_bounds (length (c :: text) + extra) (normalize (c :: text))
           (effective_size opts) (effective_overlap opts) 0 = Some bs
         /\ chunkText (length (c :: text) + extra) (Str (c :: text)) opts =
            Some (filter to_boolean
                    (map (fun w => trim (window_text (normalize (c :: text)) w))
                       bs)).
Proof.
  intros Hsize.
  assert (Hov : 0 <= effective_overlap opts < effective_size opts)
    by now apply clamp_overlap_int.
  set (n := normalize (c :: text)).
  assert (Hpos := normalize_length_pos c text). fold n in Hpos.
  assert (Hlen := length_normalize (c :: text)). fold n in Hlen.
  destruct (window_bounds_int n _ _ Hov (length (c :: text)) 0)
    as (bs & Hbs & Hw); [lia|lia|].
  exists bs. split; [exact Hw|]. intros extra.
  assert (Hmore := window_bounds_more_fuel _ _ _ _ _ _ extra Hbs).
  split; [exact Hmore|].
  rewrite chunkText_windowing_path by now apply Z.leb_gt.
  fold n. change (@of_int Z _ 0) with 0. now rewrite Hmore.
Qed.

(** The four replacements as one pass. *)

Lemma normalize_spec_cons (b : bool) (c d : code_unit) (s : jsstring) :
  normalize_spec b (c :: d :: s) =
  if is_blank c then
    if b then normalize_spec true (d :: s)
    else SP :: normalize_spec true (d :: s)
  else if ((c =? CR) && (d =? LF))%N then LF :: normalize_spec false s
  else c :: normalize_spec false (d :: s).
Proof. reflexivity. Qed.

Lemma is_blank_replaced (c : code_unit) :
  is_space_class
    ((fun d => if (d =? NBSP)%N then SP else d)
       ((fun d => if (d =? TAB)%N then SP else d) c)) = is_blank c.
Proof.
  cbv beta. unfold is_blank, is_space_class.
  destruct (N.eqb_spec c TAB) as [->|Ht]; [reflexivity|].
  destruct (N.eqb_spec c NBSP) as [->|Hn]; [reflexivity|].
  now rewrite !orb_false_r.
Qed.

Lemma not_blank_replaced (c : code_unit) :
  is_blank c = false ->
  (fun d => if (d =? NBSP)%N then SP else d)
    ((fun d => if (d =? TAB)%N then SP else d) c) = c.
Proof.
  cbv beta. unfold is_blank.
  destruct (N.eqb_spec c TAB) as [->|Ht]; [discriminate|].
  destruct (N.eqb_spec c NBSP) as [->|Hn]; [discriminate|reflexivity].
Qed.

Lemma collapse_replaced_cons (b : bool) (c : code_unit) (s : jsstring) :
  collapse_from b (replace_char NBSP (replace_char TAB (c :: s))) =
  if is_blank c then
    if b then collapse_from true (replace_char NBSP (replace_char TAB s))
    else SP :: collapse_from true (replace_char NBSP (replace_char TAB s))
  else c :: collapse_from false (replace_char NBSP (replace_char TAB s)).
Proof.
  unfold replace_char. cbn [map collapse_from].
  rewrite (is_blank_replaced c).
  destruct (is_blank c) eqn:E; [reflexivity|].
  now rewrite (not_blank_replaced c E).
Qed.

Lemma normalize_one_pass (s : jsstring) :
  forall b,
    collapse_from b (replace_char NBSP (replace_char TAB (replace_crlf s))) =
    normalize_spec b s.
Proof.
  enough (Hboth :
    (forall b, collapse_from b
                 (replace_char NBSP (replace_char TAB (replace_crlf s))) =
               normalize_spec b s)
    /\ (forall c b, collapse_from b
                      (replace_char NBSP
                         (replace_char TAB (replace_crlf (c :: s)))) =
                    normalize_spec b (c :: s))) by apply Hboth.
  induction s as [|d s [IH1 IH2]].
  - split; [reflexivity|]. intros c b.
    change (replace_crlf [c]) with [c]. rewrite collapse_replaced_cons.
    cbn [normalize_spec]. now destruct (is_blank c), b.
  - split; [apply IH2|]. intros c b.
    rewrite replace_crlf_cons, normalize_spec_cons.
    destruct ((c =? CR) && (d =? LF))%N eqn:E.
    + apply andb_true_iff in E as [Ec _]. apply N.eqb_eq in Ec. subst c.
      rewrite collapse_replaced_cons.
      change (is_blank LF) with false. change (is_blank CR) with false.
      cbv iota. now rewrite IH1.
    + rewrite collapse_replaced_cons, !IH2. reflexivity.
Qed.

(** ** The chunks on integers *)

Lemma windowed_contiguous (size L : Z) :
  0 < size ->
  forall bs start,
    0 <= start < L -> windowed size 0 L start bs -> contiguous start bs.
Proof.
  intros Hsize. induction bs as [|[s e] bs IH]; intros start Hstart;
    [intros []|].
  cbn [windowed contiguous]. intros (-> & -> & Hrest).
  split; [reflexivity|]. split; [lia|].
  destruct bs as [|w bs]; [exact I|].
  destruct Hrest as [Hlt Hrest]. rewrite Z.sub_0_r in Hrest.
  apply IH; [lia|exact Hrest].
Qed.

Lemma chunk_of_window (n : jsstring) (size : Z) (w : Z * Z) :
  0 <= fst w < snd w /\ snd w <= Z.of_nat (length n)
  /\ snd w - fst w <= size ->
  trim (trim (window_text n w)) = trim (window_text n w)
  /\ substring_of (trim (window_text n w)) n
  /\ Z.of_nat (length (trim (window_text n w))) <= size.
Proof.
  intros (Hw & Hend & Hlen). split; [apply trim_idem|]. split.
  - eapply substring_of_trans; [apply trim_substring|apply slice_substring].
  - assert (Ht := length_trim (window_text n w)).
    assert (Hs := length_slice_integers n (fst w) (snd w)).
    specialize (Hs ltac:(lia)).
    unfold window_text in *. cbn [to_integer IntNumber] in *. lia.
Qed.

(** The chunks of a non-empty text under a positive integer size. *)
Lemma chunkText_int_chunks (c : code_unit) (text : jsstring)
    (opts : ChunkOptions Z) :
  0 < effective_size opts ->
  exists chunks,
    (forall extra,
        chunkText (length (c :: text) + extra) (Str (c :: text)) opts =
        Some chunks)
    /\ Forall (fun ch => ch <> [] /\ trim ch = ch
                         /\ substring_of ch (normalize (c :: text))
                         /\ Z.of_nat (length ch) <= effective_size opts)
         chunks.
Proof.
  intros Hsize.
  destruct (chunkText_int_windows c text opts Hsize) as (bs & Hw & Hrun).
  eexists. split; [intros extra; apply (Hrun extra)|].
  assert (Hov : 0 <= effective_overlap opts < effective_size opts)
    by now apply clamp_overlap_int.
  assert (Hn := normalize_length_pos c text).
  assert (Hrange := windowed_in_range _ _ _ Hov bs 0 (conj (Z.le_refl 0) Hn) Hw).
  apply Forall_forall. intros ch Hch.
  apply filter_In in Hch as [Hch Hne].
  apply in_map_iff in Hch as (w & <- & Hin).
  rewrite Forall_forall in Hrange.
  destruct (chunk_of_window _ _ w (Hrange w Hin)) as (Hidem & Hsub & Hlen).
  split; [|auto].
  intros Hnil. rewrite Hnil in Hne. discriminate.
Qed.

(** A text that is its own normalization and its own trimming, and no
    longer than the size, is its own single chunk. *)
Lemma chunkText_int_short (fuel : nat) (ch : jsstring) (opts : ChunkOptions Z) :
  0 < effective_size opts -> ch <> [] -> normalize ch = ch -> trim ch = ch ->
  Z.of_nat (length ch) <= effective_size opts ->
  chunkText (S fuel) (Str ch) opts = Some [ch].
Proof.
  intros Hsize Hne Hnorm Htrim Hlen. destruct ch as [|d r]; [congruence|].
  rewrite chunkText_windowing_path by now apply Z.leb_gt.
  rewrite Hnorm, window_bounds_int_step.
  change (@of_int Z _ 0) with 0.
  set (L := Z.of_nat (length (d :: r))) in *.
  assert (HL : 0 < L) by (subst L; simpl; lia).
  destruct (Z.ltb_spec 0 L); [|lia].
  rewrite Z.min_r by lia. rewrite Z.eqb_refl.
  cbn [map filter]. unfold window_text. cbn [fst snd to_integer IntNumber].
  rewrite slice_integers by (subst L; lia).
  rewrite Z.sub_0_r. subst L. rewrite Nat2Z.id. change (Z.to_nat 0) with 0%nat.
  cbn [skipn]. rewrite firstn_all, Htrim. reflexivity.
Qed.

Lemma clamp_overlap_int_zero (sz : Z) : 0 < sz -> clamp_overlap sz 0 = 0.
Proof.
  intros Hsz. unfold clamp_overlap, geb. cbn.
  now destruct (Z.leb_spec sz 0); [lia|].
Qed.

(** * The chunker's contract *)

(** ** Windowing *)

(** C1. On a text and a size that is not [<= 0], [chunkText] computes
    the windowing of the design: the cursor starts at 0, a window ends at
    [min(start + size, L)], its trimmed slice is emitted unless it is
    empty, the loop stops when [end == L] and otherwise continues from
    [max(0, end - overlap)], with the overlap as clamped.  This holds on a
    non-empty text for every implementation of numbers, and on the empty
    text, where neither emits a chunk, on integers and on binary64
    numbers.  On ["0123456789"] with size 4 and overlap 2 the chunks are
    ["0123"], ["2345"], ["4567"], ["6789"] and the windows are [0,4),
    [2,6), [4,8), [6,10): every start is the end before it minus 2, and
    the last end is 10. *)
Theorem chunkText_windowing :
  (forall (num : Type) (N : JsNumber num) (fuel : nat) (c : code_unit)
          (text : jsstring) (opts : ChunkOptions num),
      leb (effective_size opts) (of_int 0) = false ->
      chunkText fuel (Str (c :: text)) opts =
      spec_windowing fuel (normalize (c :: text)) (effective_size opts)
        (effective_overlap opts) (of_int 0))
  /\ (forall (fuel : nat) (opts : ChunkOptions Z),
        chunkText (S fuel) (Str []) opts =
        spec_windowing (S fuel) (normalize []) (effective_size opts)
          (effective_overlap opts) (of_int 0))
  /\ (forall (fuel : nat) (opts : ChunkOptions float),
        chunkText (S fuel) (Str []) opts =
        spec_windowing (S fuel) (normalize []) (effective_size opts)
          (effective_overlap opts) (of_int 0))
  /\ chunkText 4 (Str (js "0123456789")) (options 4 2)%float =
     Some [js "0123"; js "2345"; js "4567"; js "6789"]
  /\ (window_bounds 4 (normalize (js "0123456789")) 4 (clamp_overlap 4 2) 0 =
      Some [(0, 4); (2, 6); (4, 8); (6, 10)])%float
  /\ window_bounds 4 (normalize (js "0123456789")) 4 (clamp_overlap 4 2) 0 =
     Some [(0, 4); (2, 6); (4, 8); (6, 10)]
  /\ windowed 4 2 10 0 [(0, 4); (2, 6); (4, 8); (6, 10)].
Proof.
  split; [|split; [|split; [|split; [|split; [|split]]]]].
  - intros num N fuel c text opts Hsize. unfold chunkText.
    name_effective opts. rewrite Hsize. apply windowing_refines_spec.
  - reflexivity.
  - reflexivity.
  - vm_compute. reflexivity.
  - vm_compute. reflexivity.
  - vm_compute. reflexivity.
  - cbn. repeat split; lia.
Qed.

Lemma chunkText_windowing_witness :
  leb (effective_size (options 4 2)%float) (of_int 0) = false
  /\ chunkText 4 (Str (js "0123456789")) (options 4 2)%float =
     spec_windowing 4 (normalize (js "0123456789"))
       (effective_size (options 4 2)%float)
       (effective_overlap (options 4 2)%float) (of_int 0).
Proof.
  split; [reflexivity|].
  exact (proj1 chunkText_windowing float _ 4%nat 48%N (js "123456789")
           (options 4 2)%float eq_refl).
Defined.

(** ** The two early returns *)

(** C5. On a non-empty text, whitespace-only or not, and options whose
    size is [<= 0], [chunkText] returns the one-element list of the text
    as it was passed: nothing is replaced, trimmed or filtered. *)
Theorem chunkText_nonpositive_size_passthrough
    {num : Type} `{JsNumber num} (fuel : nat) (c : code_unit)
    (text : jsstring) (opts : ChunkOptions num) :
  leb (effective_size opts) (of_int 0) = true ->
  chunkText fuel (Str (c :: text)) opts = Some [c :: text].
Proof. apply chunkText_passthrough. Qed.

Lemma chunkText_nonpositive_size_passthrough_witness :
  leb (effective_size (options_size 0%float)) (of_int 0) = true
  /\ chunkText 0 (Str (js "hello world")) (options_size 0%float) =
     Some [js "hello world"]
  /\ chunkText 0 (Str ([TAB; SP; CR; LF; NBSP; SP; SP]))
       (options_size (-3)%float) =
     Some [[TAB; SP; CR; LF; NBSP; SP; SP]].
Proof.
  split; [reflexivity|split].
  - apply (chunkText_nonpositive_size_passthrough 0 _ _
             (options_size 0%float)).
    reflexivity.
  - apply (chunkText_nonpositive_size_passthrough 0 _ _
             (options_size (-3)%float)).
    reflexivity.
Defined.

(** C10. On an empty text, and on [null] or [undefined] passed for it,
    [chunkText] returns the empty list whatever the options are, also when
    the size is [<= 0]: the test of the text comes before the test of the
    size, so on the empty string with size 0 the result is the empty
    list and not the list of the empty string. *)
Theorem chunkText_falsy_text :
  (forall (num : Type) (N : JsNumber num) (fuel : nat)
          (opts : ChunkOptions num),
      chunkText fuel (Str []) opts = Some []
      /\ chunkText fuel Null opts = Some []
      /\ chunkText fuel Undefined opts = Some [])
  /\ chunkText 0 (Str []) (options_size 0%float) = Some []
  /\ chunkText 0 (Str []) (options_size 0%float) <> Some [[]].
Proof.
  split; [|split].
  - intros num N fuel opts. repeat split.
  - reflexivity.
  - discriminate.
Qed.

(** ** Normalization *)

(** C4. The text that is windowed is the text with every CR LF replaced
    by LF, every tab and every non-breaking space replaced by a space, and
    every run of spaces, form feeds and vertical tabs replaced by one
    space, newlines kept as they are: the four replacements of the source
    amount to the one pass [normalize_spec], their result holds no tab,
    non-breaking space, form feed or vertical tab and no two spaces in a
    row, and the chunks are computed from it.  [chunkText] of
    ["a\r\nb\tc\u00A0d"] with size 1200 is [["a\nb c d"]], and of
    ["a    b"] is [["a b"]]; three newlines in a row stay three. *)
Theorem chunkText_normalization :
  (forall text : jsstring, normalize text = normalize_spec false text)
  /\ (forall text : jsstring, spaces_normal (normalize text))
  /\ (forall (num : Type) (N : JsNumber num) (fuel : nat) (c : code_unit)
             (text : jsstring) (opts : ChunkOptions num),
        leb (effective_size opts) (of_int 0) = false ->
        chunkText fuel (Str (c :: text)) opts =
        spec_windowing fuel (normalize_spec false (c :: text))
          (effective_size opts) (effective_overlap opts) (of_int 0))
  /\ chunkText 1
       (Str (js "a" ++ [CR; LF] ++ js "b" ++ [TAB] ++ js "c" ++ [NBSP]
             ++ js "d"))
       (options_size 1200%float) =
     Some [js "a" ++ [LF] ++ js "b c d"]
  /\ chunkText 1 (Str (js "a    b")) (options_size 1200%float) =
     Some [js "a b"]
  /\ normalize (js "a" ++ [LF; LF; LF] ++ js "b") =
     js "a" ++ [LF; LF; LF] ++ js "b".
Proof.
  assert (Hpass : forall text, normalize text = normalize_spec false text)
    by (intros text; apply normalize_one_pass).
  split; [exact Hpass|].
  split; [apply normalize_spaces_normal|].
  split; [|split; [|split]].
  - intros num N fuel c text opts Hsize. rewrite <- Hpass. unfold chunkText.
    name_effective opts. rewrite Hsize. apply windowing_refines_spec.
  - vm_compute. reflexivity.
  - vm_compute. reflexivity.
  - vm_compute. reflexivity.
Qed.

Lemma chunkText_normalization_witness :
  leb (effective_size (options_size 1200%float)) (of_int 0) = false
  /\ chunkText 1 (Str (js "a    b")) (options_size 1200%float) =
     spec_windowing 1 (normalize_spec false (js "a    b"))
       (effective_size (options_size 1200%float))
       (effective_overlap (options_size 1200%float)) (of_int 0).
Proof.
  split; [reflexivity|].
  exact (proj1 (proj2 (proj2 chunkText_normalization)) float _ 1%nat 97%N
           (js "    b") (options_size 1200%float) eq_refl).
Defined.

(** ** The clamps of the overlap *)

(** ** Binary64 numbers: the sign of [Math.floor(size / 4)] *)

Lemma binary_round_aux_sign (prec emax : Z) (sx : bool) (mx ex : Z) (lx : location) :
  match binary_round_aux prec emax sx mx ex lx with
  | S754_zero s | S754_infinity s | S754_finite s _ _ => s = sx
  | S754_nan => True
  end.
Proof.
  unfold binary_round_aux.
  destruct (shr_fexp prec emax mx ex lx) as [mrs e'].
  destruct (shr_fexp prec emax _ e' loc_Exact) as [mrs' e''].
  destruct (shr_m mrs'); [reflexivity| |exact I].
  destruct (Z.leb e'' (emax - prec)); reflexivity.
Qed.

Lemma sign_clear_not_below_zero (r : spec_float) :
  sign_clear r -> SFltb r (S754_zero false) = false.
Proof. destruct r as [s|s| |s m e]; simpl; intros H; try subst s; reflexivity. Qed.


Lemma of_uint63_sign_clear (n : PrimInt63.int) :
  sign_clear (Prim2SF (of_uint63 n)).
Proof.
  rewrite of_uint63_spec. unfold binary_normalize.
  assert (Hn := Uint63.to_Z_bounded n).
  destruct (Uint63Axioms.to_Z n) as [|m|m]; [reflexivity| |lia].
  unfold binary_round.
  destruct (shl_align _ _ _) as [mz ez].
  exact (binary_round_aux_sign prec emax false (Z.pos mz) ez loc_Exact).
Qed.

Lemma truncate_nonneg (m : positive) (e : Z) : 0 <= Float64.truncate m e.
Proof.
  unfold Float64.truncate. destruct (0 <=? e).
  - now apply Z.shiftl_nonneg.
  - now apply Z.shiftr_nonneg.
Qed.

Lemma math_floor_sign_clear (x : float) :
  sign_clear (Prim2SF x) -> sign_clear (Prim2SF (Float64.math_floor x)).
Proof.
  intros Hx. unfold Float64.math_floor.
  destruct (Prim2SF x) as [s|s| |s m e] eqn:E; try (rewrite E; exact Hx).
  simpl in Hx. subst s.
  destruct (0 <=? e); [rewrite E; reflexivity|].
  destruct (Z.shiftl _ _ =? Z.pos m); [rewrite E; reflexivity|].
  unfold Float64.of_int.
  assert (Hq := truncate_nonneg m e).
  destruct (Z.ltb_spec (Float64.truncate m e) 0); [lia|].
  apply of_uint63_sign_clear.
Qed.

Lemma div_sign_clear (x y : float) :
  sign_clear (Prim2SF x) -> sign_clear (Prim2SF y) ->
  sign_clear (Prim2SF (x / y)).
Proof.
  rewrite div_spec. unfold SF64div, SFdiv.
  destruct (Prim2SF x) as [sx|sx| |sx mx ex], (Prim2SF y) as [sy|sy| |sy my ey];
    simpl; intros Hx Hy; subst; try reflexivity.
  destruct (SFdiv_core_binary prec emax (Z.pos mx) ex (Z.pos my) ey)
    as [[mz ez] lz].
  exact (binary_round_aux_sign prec emax false mz ez lz).
Qed.

Lemma above_zero_sign_clear (x y : float) :
  PrimFloat.leb x 0 = false -> PrimFloat.leb x y = true ->
  sign_clear (Prim2SF x).
Proof.
  rewrite !leb_spec. change (Prim2SF 0) with (S754_zero false).
  destruct (Prim2SF x) as [s|s| |s m e]; simpl; try discriminate.
  - now destruct s.
  - now destruct s.
Qed.

Lemma below_zero_not_above (x y : float) :
  PrimFloat.leb x 0 = false -> PrimFloat.leb x y = true ->
  PrimFloat.ltb y 0 = false.
Proof.
  rewrite !leb_spec, ltb_spec. change (Prim2SF 0) with (S754_zero false).
  unfold SFleb, SFltb.
  destruct (Prim2SF x) as [s|s| |s m e], (Prim2SF y) as [s'|s'| |s' m' e'];
    simpl; try discriminate; try reflexivity;
    destruct s; try discriminate; destruct s'; try discriminate;
    try reflexivity.
Qed.

Lemma clamp_overlap_float_above (sz ov : float) :
  PrimFloat.leb sz 0 = false -> PrimFloat.leb sz ov = true ->
  clamp_overlap sz ov = floor_div sz (of_int 4)
  /\ clamp_overlap sz (floor_div sz (of_int 4)) = floor_div sz (of_int 4).
Proof.
  intros Hsz Hov.
  assert (Hq : PrimFloat.ltb (Float64.floor_div sz 4) 0 = false).
  { rewrite ltb_spec. apply sign_clear_not_below_zero.
    apply math_floor_sign_clear, div_sign_clear; [|reflexivity].
    exact (above_zero_sign_clear sz ov Hsz Hov). }
  unfold clamp_overlap, geb.
  change (@ltb float _) with PrimFloat.ltb.
  change (@leb float _) with PrimFloat.leb.
  change (@of_int float _ 0) with 0%float.
  change (@floor_div float _ sz (of_int 4)) with (Float64.floor_div sz 4).
  rewrite (below_zero_not_above sz ov Hsz Hov), Hov, Hq.
  split; [reflexivity|].
  now destruct (PrimFloat.leb sz (Float64.floor_div sz 4)).
Qed.

Lemma clamp_overlap_float_below (sz ov : float) :
  PrimFloat.ltb ov 0 = true -> clamp_overlap sz ov = clamp_overlap sz 0%float.
Proof.
  intros Hov. unfold clamp_overlap.
  change (@ltb float _) with PrimFloat.ltb.
  change (@of_int float _ 0) with 0%float.
  rewrite Hov. reflexivity.
Qed.


Lemma clamp_overlap_int_above (size ov : Z) :
  0 < size -> size <= ov -> clamp_overlap size ov = size / 4.
Proof.
  intros Hs Ho. unfold clamp_overlap, geb. cbn.
  destruct (Z.ltb_spec ov 0); [lia|].
  destruct (Z.leb_spec size ov); [reflexivity|lia].
Qed.

Lemma clamp_overlap_int_below (size ov : Z) :
  0 < size -> ov < 0 -> clamp_overlap size ov = clamp_overlap size 0.
Proof.
  intros Hs Ho. unfold clamp_overlap, geb. cbn.
  destruct (Z.ltb_spec ov 0); [reflexivity|lia].
Qed.

Lemma chunkText_by_overlap {num : Type} `{JsNumber num} (fuel : nat)
    (text : text_value) (sz ov ov' : num) :
  (leb sz (of_int 0) = false -> clamp_overlap sz ov = clamp_overlap sz ov') ->
  chunkText fuel text (options sz ov) = chunkText fuel text (options sz ov').
Proof.
  intros Hclamp. unfold chunkText. destruct text as [| |[|c s]]; trivial.
  cbn [options nullish size overlap].
  destruct (leb sz (of_int 0)); [reflexivity|].
  now rewrite Hclamp.
Qed.

(** C3. An overlap that is [>= size] gives the chunks of the overlap
    [floor(size / 4)], and a negative overlap gives the chunks of the
    overlap 0, for every text: on integers and on binary64 numbers alike;
    in particular, with size 10, the overlaps 10 and 2 give the same
    chunks, and so do the overlaps -5 and 0.  Both sides run the loop with
    the same bound, so they also agree on whether it has ended. *)
Theorem chunkText_overlap_clamps :
  (forall (fuel : nat) (text : text_value) (sz ov : Z),
      sz <= ov ->
      chunkText fuel text (options sz ov) =
      chunkText fuel text (options sz (sz / 4)))
  /\ (forall (fuel : nat) (text : text_value) (sz ov : Z),
        ov < 0 ->
        chunkText fuel text (options sz ov) = chunkText fuel text (options sz 0))
  /\ (forall (fuel : nat) (text : text_value) (sz ov : float),
        geb ov sz = true ->
        chunkText fuel text (options sz ov) =
        chunkText fuel text (options sz (floor_div sz (of_int 4))))
  /\ (forall (fuel : nat) (text : text_value) (sz ov : float),
        ltb ov (of_int 0) = true ->
        chunkText fuel text (options sz ov) =
        chunkText fuel text (options sz (of_int 0)))
  /\ (forall (fuel : nat) (text : text_value),
        chunkText fuel text (options 10 10)%float =
        chunkText fuel text (options 10 2)%float)
  /\ (forall (fuel : nat) (text : text_value),
        chunkText fuel text (options 10 (-5))%float =
        chunkText fuel text (options 10 0)%float).
Proof.
  split; [|split; [|split; [|split; [|split]]]].
  - intros fuel text sz ov Hov. apply chunkText_by_overlap.
    cbn [leb IntNumber of_int]. intros Hsz. apply Z.leb_gt in Hsz.
    rewrite clamp_overlap_int_above by lia.
    assert (Hq : 0 <= sz / 4 < sz)
      by (split; [apply Z.div_pos|apply Z.div_lt_upper_bound]; lia).
    unfold clamp_overlap, geb. cbn [ltb leb IntNumber of_int floor_div].
    destruct (Z.ltb_spec (sz / 4) 0); [lia|].
    now destruct (Z.leb_spec sz (sz / 4)).
  - intros fuel text sz ov Hov. apply chunkText_by_overlap.
    cbn [leb IntNumber of_int]. intros Hsz. apply Z.leb_gt in Hsz.
    now apply clamp_overlap_int_below.
  - intros fuel text sz ov Hov. apply chunkText_by_overlap. intros Hsz.
    destruct (clamp_overlap_float_above sz ov Hsz Hov) as [-> ->].
    reflexivity.
  - intros fuel text sz ov Hov. apply chunkText_by_overlap. intros _.
    now apply clamp_overlap_float_below.
  - intros fuel text. apply chunkText_by_overlap. intros _.
    vm_compute. reflexivity.
  - intros fuel text. apply chunkText_by_overlap. intros _.
    vm_compute. reflexivity.
Qed.

Lemma chunkText_overlap_clamps_witness :
  10 <= 10
  /\ chunkText 3 (Str (js "0123456789abcdefghij")) (options 10 10) =
     chunkText 3 (Str (js "0123456789abcdefghij")) (options 10 (10 / 4))
  /\ geb 10%float 10%float = true
  /\ chunkText 3 (Str (js "0123456789abcdefghij")) (options 10 10)%float =
     chunkText 3 (Str (js "0123456789abcdefghij"))
       (options 10%float (floor_div 10%float (of_int 4))).
Proof.
  split; [discriminate|]. split; [|split; [reflexivity|]].
  - exact (proj1 chunkText_overlap_clamps 3%nat
             (Str (js "0123456789abcdefghij")) 10 10 (Z.le_refl 10)).
  - exact (proj1 (proj2 (proj2 chunkText_overlap_clamps)) 3%nat
             (Str (js "0123456789abcdefghij")) 10%float 10%float eq_refl).
Defined.

(** ** Termination *)

(** With size 1 and overlap 0.9999999999999999 (the binary64 number just
    below 1) the cursor moves from 0 to [2^-53] and stays there: adding 1
    rounds to 1, and subtracting the overlap gives [2^-53] again. *)
Lemma fractional_overlap_stuck (fuel : nat) :
  window_bounds fuel (js "ab") 1%float 0x1.fffffffffffffp-1%float
    0x1p-53%float = None.
Proof. apply window_bounds_stuck; vm_compute; reflexivity. Qed.

(** C2, as stated, fails on binary64 numbers: on ["ab"] with size 1 and
    overlap 0.9999999999999999 no number of iterations ends the loop, so
    [chunkText] returns nothing. *)
Lemma chunkText_fractional_overlap_diverges :
  ~ exists (fuel : nat) (chunks : list jsstring),
      chunkText fuel (Str (js "ab"))
        (options 1 0x1.fffffffffffffp-1)%float = Some chunks.
Proof.
  intros (fuel & chunks & Hret). unfold chunkText in Hret.
  rewrite window_loop_trace in Hret.
  change (normalize (js "ab")) with (js "ab") in Hret.
  destruct fuel as [|fuel]; [discriminate|].
  cbn [options nullish size overlap] in Hret.
  replace (leb 1%float (of_int 0)) with false in Hret
    by (vm_compute; reflexivity).
  replace (clamp_overlap 1%float 0x1.fffffffffffffp-1%float)
    with 0x1.fffffffffffffp-1%float in Hret by (vm_compute; reflexivity).
  cbn [window_bounds] in Hret.
  replace (math_max (of_int 0)
             (sub (math_min (add (of_int 0) 1%float) (string_length (js "ab")))
                0x1.fffffffffffffp-1%float))
    with 0x1p-53%float in Hret by (vm_compute; reflexivity).
  rewrite fractional_overlap_stuck in Hret.
  replace (ltb (of_int 0) (string_length (js "ab"))) with true in Hret
    by (vm_compute; reflexivity).
  replace (strict_eqb (math_min (add (of_int 0) 1%float)
                         (string_length (js "ab")))
             (string_length (js "ab"))) with false in Hret
    by (vm_compute; reflexivity).
  discriminate.
Qed.

(** C2, amended: for every text and all integer sizes and overlaps, the
    negative ones, zero and an overlap [>= size] included, [chunkText]
    returns a list of strings, the loop ending within as many iterations
    as the text has code units; on the windowing path the clamps give
    [0 <= overlap < size], which makes every iteration advance. *)
Theorem chunkText_total_on_integers :
  (forall (text : text_value) (opts : ChunkOptions Z),
      exists chunks : list jsstring,
        forall extra : nat,
          chunkText (text_length text + extra) text opts = Some chunks)
  /\ (forall opts : ChunkOptions Z,
        0 < effective_size opts ->
        0 <= effective_overlap opts < effective_size opts).
Proof.
  split.
  - intros text opts. destruct text as [| |[|c s]]; try (now exists []).
    destruct (Z.leb_spec (effective_size opts) 0) as [Hle|Hgt].
    + exists [c :: s]. intros extra.
      apply chunkText_passthrough.
      now apply Z.leb_le.
    + destruct (chunkText_int_windows c s opts Hgt) as (bs & _ & Hrun).
      eexists. intros extra. apply (Hrun extra).
  - intros opts. apply clamp_overlap_int.
Qed.

Lemma chunkText_total_on_integers_witness :
  (exists chunks : list jsstring,
      forall extra : nat,
        chunkText (text_length (Str (js "ab")) + extra) (Str (js "ab"))
          (options 1 5) = Some chunks)
  /\ 0 < effective_size (options 1 5)
  /\ 0 <= effective_overlap (options 1 5) < effective_size (options 1 5).
Proof.
  split; [|split; [reflexivity|]].
  - exact (proj1 chunkText_total_on_integers (Str (js "ab")) (options 1 5)).
  - exact (proj2 chunkText_total_on_integers (options 1 5) eq_refl).
Defined.

(** ** The size of a chunk *)

(** C9, as stated, fails for a size that is not an integer: with size 0.5
    and overlap 0 the chunks of ["ab"] are ["a"] and ["b"], each of length
    1, because [slice] rounds the ends of a window to integers.  It fails
    for an integer size, too, when the overlap is not an integer: with
    size 4 and overlap 3.0000000000000004 the second window of
    ["0123456789"] starts just below 1 and ends at 5 (the sum, rounded),
    and [slice] cuts the five code units ["01234"]. *)
Lemma chunk_longer_than_fractional_size :
  leb 0.5%float (of_int 0) = false
  /\ chunkText 4 (Str (js "ab")) (options 0.5 0)%float = Some [js "a"; js "b"]
  /\ leb (string_length (js "a")) 0.5%float = false
  /\ chunkText 7 (Str (js "0123456789")) (options 4 0x1.8000000000001p+1)%float =
     Some [js "0123"; js "01234"; js "12345"; js "23456"; js "34567";
           js "5678"; js "6789"]
  /\ leb (string_length (js "01234")) 4%float = false.
Proof. repeat split; vm_compute; reflexivity. Qed.

(** C9, amended: for every text and every options value whose size, after
    its default, is a positive integer and whose overlap, after its
    default, is an integer, [chunkText] returns a list whose strings all
    have at most [size] code units. *)
Theorem chunk_length_at_most_size (text : text_value) (opts : ChunkOptions Z) :
  0 < effective_size opts ->
  exists chunks : list jsstring,
    (forall extra : nat,
        chunkText (text_length text + extra) text opts = Some chunks)
    /\ Forall (fun ch => Z.of_nat (length ch) <= effective_size opts) chunks.
Proof.
  intros Hsize. destruct text as [| |[|c s]];
    try (exists []; split; [reflexivity|constructor]).
  destruct (chunkText_int_chunks c s opts Hsize) as (chunks & Hrun & Hall).
  exists chunks. split; [exact Hrun|].
  revert Hall. apply Forall_impl. tauto.
Qed.

Lemma chunk_length_at_most_size_witness :
  0 < effective_size (options 4 2)
  /\ exists chunks : list jsstring,
       (forall extra : nat,
           chunkText (text_length (Str (js "0123456789")) + extra)
             (Str (js "0123456789")) (options 4 2) = Some chunks)
       /\ Forall (fun ch => Z.of_nat (length ch) <= effective_size (options 4 2))
            chunks.
Proof.
  split; [reflexivity|].
  apply (chunk_length_at_most_size (Str (js "0123456789")) (options 4 2)).
  reflexivity.
Defined.

(** ** The invariant of the data model *)




(** ** Chunking a chunk again *)

(** C7, as stated, fails on a chunk that holds CR LF: the text
    ["a\r\r\nb"] under the default options has the single chunk
    ["a\r\nb"] (only the second CR is followed by LF when the pairs are
    replaced), and that chunk is turned into ["a\nb"] when it is chunked
    again. *)
Lemma rechunk_changes_chunk_with_crlf :
  returns (Str (js "a" ++ [CR; CR; LF] ++ js "b"))
    (no_options : ChunkOptions float) [js "a" ++ [CR; LF] ++ js "b"]
  /\ returns (Str (js "a" ++ [CR; LF] ++ js "b"))
       (no_options : ChunkOptions float) [js "a" ++ [LF] ++ js "b"]
  /\ ~ returns (Str (js "a" ++ [CR; LF] ++ js "b"))
         (no_options : ChunkOptions float) [js "a" ++ [CR; LF] ++ js "b"].
Proof.
  assert (Hagain : returns (Str (js "a" ++ [CR; LF] ++ js "b"))
                     (no_options : ChunkOptions float)
                     [js "a" ++ [LF] ++ js "b"])
    by (exists 1%nat; vm_compute; reflexivity).
  split; [exists 1%nat; vm_compute; reflexivity|].
  split; [exact Hagain|].
  intros Hsame.
  assert (Heq := returns_functional _ _ _ _ Hagain Hsame).
  discriminate Heq.
Qed.

(** C7, amended: for integer sizes and overlaps, every chunk that
    [chunkText] returns and that holds no CR LF pair (or any returned
    chunk, when the size is [<= 0]) is returned unchanged, as the only
    chunk, when [chunkText] is run on it with the same options. *)
Theorem rechunk_emitted_chunk (text : text_value) (opts : ChunkOptions Z)
    (chunks : list jsstring) (ch : jsstring) :
  returns text opts chunks -> In ch chunks ->
  effective_size opts <= 0 \/ has_crlf ch = false ->
  forall fuel : nat, chunkText (S fuel) (Str ch) opts = Some [ch].
Proof.
  intros [f Hf] Hin Hcond fuel.
  destruct text as [| |[|c s]];
    try (injection Hf as <-; destruct Hin).
  destruct (Z.leb_spec (effective_size opts) 0) as [Hle|Hgt].
  - rewrite chunkText_passthrough in Hf by now apply Z.leb_le.
    injection Hf as <-. destruct Hin as [<-|[]].
    apply chunkText_passthrough. now apply Z.leb_le.
  - destruct Hcond as [Hle|Hcrlf]; [lia|].
    destruct (chunkText_int_chunks c s opts Hgt) as (chunks' & Hrun & Hall).
    assert (chunks' = chunks) as ->.
    { specialize (Hrun f).
      apply (chunkText_more_fuel _ _ _ (length (c :: s))) in Hf.
      rewrite Nat.add_comm in Hf. congruence. }
    rewrite Forall_forall in Hall.
    destruct (Hall ch Hin) as (Hne & Htrim & Hsub & Hlen).
    apply chunkText_int_short; auto.
    apply normalize_fixed; [|exact Hcrlf].
    eapply spaces_normal_substring; [exact Hsub|apply normalize_spaces_normal].
Qed.

Lemma rechunk_emitted_chunk_witness :
  returns (Str (js "0123456789")) (options 4 2)
    [js "0123"; js "2345"; js "4567"; js "6789"]
  /\ In (js "2345") [js "0123"; js "2345"; js "4567"; js "6789"]
  /\ has_crlf (js "2345") = false
  /\ forall fuel : nat,
       chunkText (S fuel) (Str (js "2345")) (options 4 2) = Some [js "2345"].
Proof.
  assert (Hret : returns (Str (js "0123456789")) (options 4 2)
                   [js "0123"; js "2345"; js "4567"; js "6789"])
    by (exists 4%nat; reflexivity).
  assert (Hin : In (js "2345") [js "0123"; js "2345"; js "4567"; js "6789"])
    by (simpl; auto).
  split; [exact Hret|]. split; [exact Hin|]. split; [reflexivity|].
  exact (rechunk_emitted_chunk _ _ _ _ Hret Hin (or_intror eq_refl)).
Defined.

(** ** No overlap *)

(** *** The size [Number.MIN_VALUE] *)

(** With overlap 0 the cursor of the loop is a multiple of the size.  For
    the size [2^-1074], the smallest binary64 number above 0, the
    multiples up to [2^53] times the size are computed exactly, one per
    iteration, and the next sum is rounded back: the cursor never gets
    past [2^-1021]. *)

Lemma digits2_pos_lower (p : positive) :
  2 ^ (Z.pos (digits2_pos p) - 1) <= Z.pos p.
Proof.
  induction p as [p IH|p IH|]; cbn [digits2_pos]; [| |reflexivity].
  - rewrite Pos2Z.inj_succ.
    replace (Z.succ (Z.pos (digits2_pos p)) - 1)
      with (Z.succ (Z.pos (digits2_pos p) - 1)) by lia.
    rewrite Z.pow_succ_r by lia. lia.
  - rewrite Pos2Z.inj_succ.
    replace (Z.succ (Z.pos (digits2_pos p)) - 1)
      with (Z.succ (Z.pos (digits2_pos p) - 1)) by lia.
    rewrite Z.pow_succ_r by lia. lia.
Qed.

Lemma digits2_pos_bound (p : positive) :
  Z.pos p < 2 ^ 53 -> Z.pos (digits2_pos p) <= 53.
Proof.
  intros Hp. assert (Hl := digits2_pos_lower p).
  destruct (Z.le_gt_cases (Z.pos (digits2_pos p)) 53) as [|Hgt]; [assumption|].
  assert (2 ^ 53 <= 2 ^ (Z.pos (digits2_pos p) - 1))
    by (apply Z.pow_le_mono_r; lia).
  lia.
Qed.

Lemma fexp_subnormal (p : positive) :
  Z.pos p < 2 ^ 53 ->
  fexp prec emax (Z.pos (digits2_pos p) + -1074) = -1074.
Proof.
  intros Hp. apply digits2_pos_bound in Hp.
  unfold fexp, SpecFloat.emin, prec, emax. lia.
Qed.

Lemma Prim2SF_subnormal (p : positive) :
  Z.pos p < 2 ^ 53 -> Prim2SF (subnormal p) = S754_finite false p (-1074).
Proof.
  intros Hp. apply Prim2SF_SF2Prim.
  unfold SpecFloat.valid_binary, bounded, canonical_mantissa.
  rewrite (fexp_subnormal p Hp). reflexivity.
Qed.

(** No rounding takes place at the exponent -1074 below [2^53]. *)
Lemma binary_normalize_subnormal (p : positive) :
  Z.pos p < 2 ^ 53 ->
  binary_normalize prec emax (Z.pos p) (-1074) false =
  S754_finite false p (-1074).
Proof.
  intros Hp. unfold binary_normalize, binary_round.
  rewrite (fexp_subnormal p Hp).
  change (shl_align p (-1074) (-1074)) with (p, -1074).
  unfold binary_round_aux, shr_fexp. cbn [Zdigits2].
  rewrite (fexp_subnormal p Hp).
  change (-1074 - -1074) with 0.
  cbn [shr shr_record_of_loc shr_m loc_of_shr_record round_nearest_even
       Zdigits2].
  rewrite (fexp_subnormal p Hp).
  change (-1074 - -1074) with 0.
  cbn [shr shr_record_of_loc shr_m]. reflexivity.
Qed.

Lemma subnormal_succ (p : positive) :
  Z.pos (p + 1) < 2 ^ 53 ->
  PrimFloat.add (subnormal p) (subnormal 1) = subnormal (p + 1).
Proof.
  intros Hp. apply Prim2SF_inj.
  rewrite add_spec, !Prim2SF_subnormal by lia.
  unfold SF64add, SFadd.
  change (Z.min (-1074) (-1074)) with (-1074).
  change (shl_align p (-1074) (-1074)) with (p, -1074).
  change (shl_align 1 (-1074) (-1074)) with (1%positive, -1074).
  cbn [fst cond_Zopp]. rewrite <- Pos2Z.inj_add.
  now apply binary_normalize_subnormal.
Qed.

Lemma subnormal_compare (p : positive) :
  Z.pos p < 2 ^ 53 ->
  PrimFloat.is_nan (subnormal p) = false
  /\ PrimFloat.ltb (subnormal p) 2 = true
  /\ PrimFloat.eqb (subnormal p) 2 = false
  /\ PrimFloat.ltb 0 (subnormal p) = true
  /\ PrimFloat.sub (subnormal p) 0 = subnormal p.
Proof.
  intros Hp. unfold PrimFloat.is_nan.
  rewrite !ltb_spec, !eqb_spec, (Prim2SF_subnormal p Hp).
  change (Prim2SF 2) with (S754_finite false 4503599627370496 (-51)).
  change (Prim2SF 0) with (S754_zero false).
  unfold SFltb, SFeqb. cbn [SFcompare Z.compare].
  rewrite Pos.compare_cont_refl.
  repeat split.
  apply Prim2SF_inj. rewrite sub_spec, (Prim2SF_subnormal p Hp).
  reflexivity.
Qed.

(** One iteration on ["ab"]: from [p] times the size to [p + 1] times. *)
Lemma subnormal_window (fuel : nat) (p : positive) :
  Z.pos (p + 1) < 2 ^ 53 ->
  window_bounds (S fuel) (js "ab") (subnormal 1) 0%float (subnormal p) =
  match window_bounds fuel (js "ab") (subnormal 1) 0%float
          (subnormal (p + 1)) with
  | Some rest => Some ((subnormal p, subnormal (p + 1)) :: rest)
  | None => None
  end.
Proof.
  intros Hp.
  destruct (subnormal_compare p ltac:(lia)) as (_ & Hlt & _).
  destruct (subnormal_compare (p + 1) Hp) as (Hnan & Hlt' & Hne & Hpos & Hsub).
  cbn [window_bounds].
  change (@string_length float _ (js "ab")) with 2%float.
  change (@ltb float _) with PrimFloat.ltb.
  change (@add float _) with PrimFloat.add.
  change (@sub float _) with PrimFloat.sub.
  change (@strict_eqb float _) with PrimFloat.eqb.
  change (@math_min float _) with Float64.math_min.
  change (@math_max float _) with Float64.math_max.
  change (@of_int float _ 0) with 0%float.
  rewrite Hlt, (subnormal_succ p Hp).
  assert (Hmin : Float64.math_min (subnormal (p + 1)) 2 = subnormal (p + 1)).
  { unfold Float64.math_min. rewrite Hnan, Hlt'. reflexivity. }
  rewrite Hmin, Hne, Hsub.
  assert (Hmax : Float64.math_max 0 (subnormal (p + 1)) = subnormal (p + 1)).
  { unfold Float64.math_max. rewrite Hnan, Hpos. reflexivity. }
  rewrite Hmax. reflexivity.
Qed.

(** At [2^-1021], which is [2^53] times the size, adding the size rounds
    back to [2^-1021]. *)
Lemma smallest_size_stuck (fuel : nat) :
  window_bounds fuel (js "ab") (subnormal 1) 0%float 0x1p-1021%float = None.
Proof. apply window_bounds_stuck; vm_compute; reflexivity. Qed.

Lemma smallest_size_runs (fuel : nat) :
  forall p : positive,
    Z.pos p < 2 ^ 53 ->
    window_bounds fuel (js "ab") (subnormal 1) 0%float (subnormal p) = None.
Proof.
  induction fuel as [|fuel IH]; intros p Hp; [reflexivity|].
  destruct (Z.eq_dec (Z.pos (p + 1)) (2 ^ 53)) as [Hlast|Hnext].
  - assert (p = 9007199254740991%positive) as -> by lia.
    cbn [window_bounds].
    replace (ltb (subnormal 9007199254740991) (string_length (js "ab")))
      with true by (vm_compute; reflexivity).
    replace (strict_eqb
               (math_min (add (subnormal 9007199254740991) (subnormal 1))
                  (string_length (js "ab"))) (string_length (js "ab")))
      with false by (vm_compute; reflexivity).
    replace (math_max (of_int 0)
               (sub (math_min (add (subnormal 9007199254740991) (subnormal 1))
                       (string_length (js "ab"))) 0%float))
      with 0x1p-1021%float by (vm_compute; reflexivity).
    now rewrite smallest_size_stuck.
  - rewrite subnormal_window by lia. rewrite IH by lia. reflexivity.
Qed.

Lemma smallest_size_no_windows (fuel : nat) :
  window_bounds fuel (normalize (js "ab"))
    (effective_size (options 0x1p-1074 0)%float)
    (effective_overlap (options 0x1p-1074 0)%float) (of_int 0) = None.
Proof.
  change (normalize (js "ab")) with (js "ab").
  change (effective_size (options 0x1p-1074 0)%float) with (subnormal 1).
  replace (effective_overlap (options 0x1p-1074 0)%float) with 0%float
    by (vm_compute; reflexivity).
  destruct fuel as [|fuel]; [reflexivity|].
  cbn [window_bounds].
  replace (ltb (of_int 0) (string_length (js "ab"))) with true
    by (vm_compute; reflexivity).
  replace (strict_eqb
             (math_min (add (of_int 0) (subnormal 1)) (string_length (js "ab")))
             (string_length (js "ab"))) with false
    by (vm_compute; reflexivity).
  replace (math_max (of_int 0)
             (sub (math_min (add (of_int 0) (subnormal 1))
                     (string_length (js "ab"))) 0%float))
    with (subnormal 1) by (vm_compute; reflexivity).
  now rewrite smallest_size_runs.
Qed.

(** C8, as stated, fails for a size above 0 that is not an integer: with
    overlap 0 and the size [Number.MIN_VALUE], [2^-1074], the loop on
    ["ab"] never completes its list of windows, and [chunkText] returns
    nothing; the windows it goes through never get beyond the first code
    unit of the text. *)
Lemma chunkText_smallest_size_diverges :
  ltb (of_int 0) (effective_size (options 0x1p-1074 0)%float) = true
  /\ effective_overlap (options 0x1p-1074 0)%float = 0%float
  /\ (~ exists (fuel : nat) (bs : list (float * float)),
          window_bounds fuel (normalize (js "ab"))
            (effective_size (options 0x1p-1074 0)%float)
            (effective_overlap (options 0x1p-1074 0)%float) (of_int 0) =
          Some bs)
  /\ ~ exists (fuel : nat) (chunks : list jsstring),
         chunkText fuel (Str (js "ab")) (options 0x1p-1074 0)%float =
         Some chunks.
Proof.
  split; [vm_compute; reflexivity|]. split; [vm_compute; reflexivity|]. split.
  - intros (fuel & bs & Hret).
    rewrite smallest_size_no_windows in Hret. discriminate.
  - intros (fuel & chunks & Hret).
    change (Str (js "ab")) with (Str (97%N :: js "b")) in Hret.
    rewrite chunkText_windowing_path in Hret by (vm_compute; reflexivity).
    change (97%N :: js "b") with (js "ab") in Hret.
    rewrite smallest_size_no_windows in Hret. discriminate.
Qed.

(** C8, amended.  With overlap 0 and a positive integer size, the windows
    of the loop, before trimming, follow one another without gap or
    overlap from 0 to the length of the normalized text, and their texts
    concatenated are the normalized text; the chunks are these texts
    trimmed, the empty ones dropped.  [chunkText] of ["aaaaaaaaaa"] with
    size 4 and overlap 0 is [["aaaa", "aaaa", "aa"]]. *)
Theorem zero_overlap_partitions :
  (forall (text : jsstring) (sz : Z),
      0 < sz ->
      exists bs : list (Z * Z),
        (forall extra : nat,
            window_bounds (S (length text + extra)) (normalize text)
              sz (effective_overlap (options sz 0)) 0 = Some bs
            /\ chunkText (length text + extra) (Str text) (options sz 0) =
               Some (filter to_boolean
                       (map trim (map (window_text (normalize text)) bs))))
        /\ effective_overlap (options sz 0) = 0
        /\ contiguous 0 bs
        /\ snd (last bs (0, 0)) = Z.of_nat (length (normalize text))
        /\ concat (map (window_text (normalize text)) bs) = normalize text)
  /\ chunkText 3 (Str (js "aaaaaaaaaa")) (options 4 0)%float =
     Some [js "aaaa"; js "aaaa"; js "aa"]
  /\ (window_bounds 3 (normalize (js "aaaaaaaaaa")) 4 (clamp_overlap 4 0) 0 =
      Some [(0, 4); (4, 8); (8, 10)])%float.
Proof.
  split; [|split; vm_compute; reflexivity].
  intros text sz Hsz.
  assert (Hsize : 0 < effective_size (options sz 0)) by exact Hsz.
  assert (Hzero : effective_overlap (options sz 0) = 0)
    by now apply clamp_overlap_int_zero.
  destruct text as [|c text].
  { exists []. split; [intros extra; split; reflexivity|].
    split; [exact Hzero|]. split; [exact I|]. split; reflexivity. }
  destruct (chunkText_int_windows c text (options sz 0) Hsize)
    as (bs & Hw & Hrun).
  assert (Hn := normalize_length_pos c text).
  exists bs. split; [|split; [exact Hzero|]].
  - intros extra. split.
    + replace (S (length (c :: text) + extra))
        with (length (c :: text) + S extra)%nat by lia.
      apply Hrun.
    + destruct (Hrun extra) as [_ Hc]. now rewrite map_map.
  - assert (Hov : 0 <= effective_overlap (options sz 0)
                  < effective_size (options sz 0))
      by now apply clamp_overlap_int.
    split; [|split].
    + rewrite Hzero in Hw. eapply windowed_contiguous; [exact Hsz| |exact Hw].
      lia.
    + eapply windowed_last_end, Hw.
    + rewrite Hzero in Hw.
      rewrite (windowed_concat _ sz Hsz bs 0); [reflexivity|lia|exact Hw].
Qed.

Lemma zero_overlap_partitions_witness :
  0 < 4
  /\ exists bs : list (Z * Z),
       (forall extra : nat,
           window_bounds (S (length (js "aaaaaaaaaa") + extra))
             (normalize (js "aaaaaaaaaa")) 4
             (effective_overlap (options 4 0)) 0 = Some bs
           /\ chunkText (length (js "aaaaaaaaaa") + extra)
                (Str (js "aaaaaaaaaa")) (options 4 0) =
              Some (filter to_boolean
                      (map trim
                         (map (window_text (normalize (js "aaaaaaaaaa"))) bs))))
       /\ effective_overlap (options 4 0) = 0
       /\ contiguous 0 bs
       /\ snd (last bs (0, 0)) = Z.of_nat (length (normalize (js "aaaaaaaaaa")))
       /\ concat (map (window_text (normalize (js "aaaaaaaaaa"))) bs) =
          normalize (js "aaaaaaaaaa").
Proof.
  split; [reflexivity|].
  exact (proj1 zero_overlap_partitions (js "aaaaaaaaaa") 4 eq_refl).
Defined.

(** * Further properties of the chunker *)

(** ** What [trim] removes *)

Lemma trim_start_split_ws (s : jsstring) :
  exists pre,
    s = pre ++ trim_start s /\ Forall (fun c => is_white_space c = true) pre.
Proof.
  induction s as [|c s (pre & Hs & Hpre)]; simpl.
  - exists []. now split.
  - destruct (is_white_space c) eqn:E.
    + exists (c :: pre). split; [simpl; now f_equal|now constructor].
    + exists []. now split.
Qed.

Lemma trim_split_ws (s : jsstring) :
  exists pre post,
    s = pre ++ trim s ++ post
    /\ Forall (fun c => is_white_space c = true) pre
    /\ Forall (fun c => is_white_space c = true) post.
Proof.
  unfold trim, trim_end.
  destruct (trim_start_split_ws s) as (pre & Hs & Hpre).
  destruct (trim_start_split_ws (rev (trim_start s))) as (post & Hr & Hpost).
  exists pre, (rev post). split; [|split; [exact Hpre|]].
  - rewrite <- rev_app_distr, <- Hr, rev_involutive. exact Hs.
  - apply Forall_rev, Hpost.
Qed.

Lemma content_app (a b : jsstring) : content (a ++ b) = content a ++ content b.
Proof. apply filter_app. Qed.

Lemma content_blank (s : jsstring) :
  Forall (fun c => is_white_space c = true) s -> content s = [].
Proof.
  induction 1 as [|c s Hc _ IH]; [reflexivity|].
  unfold content in *. simpl. now rewrite Hc.
Qed.

Lemma content_trim (s : jsstring) : content (trim s) = content s.
Proof.
  destruct (trim_split_ws s) as (pre & post & Hs & Hpre & Hpost).
  rewrite Hs at 2. rewrite !content_app.
  now rewrite (content_blank pre Hpre), (content_blank post Hpost), app_nil_r.
Qed.

Lemma content_nil_blank (s : jsstring) :
  content s = [] -> Forall (fun c => is_white_space c = true) s.
Proof.
  induction s as [|c s IH]; [constructor|].
  unfold content in *. simpl. destruct (is_white_space c) eqn:E; [|discriminate].
  intros Hs. constructor; auto.
Qed.



Lemma trim_nil_blank (s : jsstring) :
  trim s = [] -> Forall (fun c => is_white_space c = true) s.
Proof.
  intros Ht. apply content_nil_blank. now rewrite <- content_trim, Ht.
Qed.

Lemma trim_start_head (s : jsstring) :
  is_white_space (hd SP (trim_start s)) = false \/ trim_start s = [].
Proof.
  induction s as [|c s IH]; simpl; [now right|].
  destruct (is_white_space c) eqn:E; [exact IH|]. left. exact E.
Qed.

Lemma trim_ends (s : jsstring) :
  trim s <> [] ->
  is_white_space (hd SP (trim s)) = false
  /\ is_white_space (last (trim s) SP) = false.
Proof.
  intros Hne. split.
  - destruct (trim_start_head (trim s)) as [Hh|Hn];
      rewrite trim_start_trim in *; [exact Hh|contradiction].
  - unfold trim, trim_end in *.
    destruct (trim_start_head (rev (trim_start s))) as [Hh|Hn].
    + destruct (trim_start (rev (trim_start s))) as [|c t] eqn:E;
        [simpl in Hne; contradiction|].
      simpl rev. rewrite last_last. exact Hh.
    + rewrite Hn in Hne. simpl in Hne. contradiction.
Qed.

(** ** What the replacements keep *)

Lemma content_cons (c : code_unit) (s : jsstring) :
  content (c :: s) =
  if negb (is_white_space c) then c :: content s else content s.
Proof. reflexivity. Qed.

Lemma content_replace_crlf (s : jsstring) :
  content (replace_crlf s) = content s.
Proof.
  enough (Hboth : content (replace_crlf s) = content s
                  /\ forall c, content (replace_crlf (c :: s)) = content (c :: s))
    by apply Hboth.
  induction s as [|d s [IH1 IH2]]; [now split|].
  split; [apply IH2|]. intros c. rewrite replace_crlf_cons.
  destruct ((c =? CR) && (d =? LF))%N eqn:E.
  - apply andb_true_iff in E as [Ec Ed].
    apply N.eqb_eq in Ec, Ed. subst c d.
    change (content (LF :: replace_crlf s)) with (content (replace_crlf s)).
    change (content (CR :: LF :: s)) with (content s). exact IH1.
  - now rewrite !(content_cons c), IH2.
Qed.

Lemma content_replace_char (c : code_unit) (s : jsstring) :
  is_white_space c = true -> content (replace_char c s) = content s.
Proof.
  intros Hc. unfold content, replace_char.
  induction s as [|d s IH]; [reflexivity|]. simpl.
  destruct (N.eqb_spec d c) as [->|Hd]; rewrite IH; [|reflexivity].
  rewrite Hc. reflexivity.
Qed.

Lemma is_space_class_white (c : code_unit) :
  is_space_class c = true -> is_white_space c = true.
Proof.
  unfold is_space_class. rewrite !orb_true_iff, !N.eqb_eq.
  intros [[->| ->]| ->]; reflexivity.
Qed.

Lemma content_collapse_from (s : jsstring) :
  forall b, content (collapse_from b s) = content s.
Proof.
  unfold content. induction s as [|c s IH]; intros b; [reflexivity|]. simpl.
  destruct (is_space_class c) eqn:E.
  - rewrite (is_space_class_white c E). simpl.
    destruct b; simpl; apply IH.
  - simpl. now rewrite IH.
Qed.

Lemma content_normalize (text : jsstring) :
  content (normalize text) = content text.
Proof.
  unfold normalize, collapse_spaces.
  rewrite content_collapse_from, !content_replace_char by reflexivity.
  apply content_replace_crlf.
Qed.

Lemma replace_crlf_head (d : code_unit) (rest : jsstring) :
  exists h t, replace_crlf (d :: rest) = h :: t /\ (h = SP -> d = SP).
Proof.
  destruct rest as [|e rest]; [now exists d, []|].
  rewrite replace_crlf_cons.
  destruct ((d =? CR) && (e =? LF))%N eqn:E.
  - exists LF, (replace_crlf rest). split; [reflexivity|discriminate].
  - now exists d, (replace_crlf (e :: rest)).
Qed.

Lemma replace_crlf_no_double_space (s : jsstring) :
  has_double_space s = false -> has_double_space (replace_crlf s) = false.
Proof.
  enough (Hboth :
    (has_double_space s = false -> has_double_space (replace_crlf s) = false)
    /\ forall c, has_double_space (c :: s) = false ->
                 has_double_space (replace_crlf (c :: s)) = false)
    by apply Hboth.
  induction s as [|d s [IH1 IH2]]; [now split|].
  split; [apply IH2|]. intros c. rewrite has_double_space_cons, replace_crlf_cons.
  intros Hs. apply orb_false_iff in Hs as [Hcd Hs].
  destruct ((c =? CR) && (d =? LF))%N eqn:E.
  - assert (Hrest : has_double_space (replace_crlf s) = false).
    { apply IH1. destruct s as [|e s]; [reflexivity|].
      rewrite has_double_space_cons in Hs.
      now apply orb_false_iff in Hs. }
    destruct (replace_crlf s) as [|h t]; [reflexivity|].
    now rewrite has_double_space_cons, Hrest.
  - destruct (replace_crlf_head d s) as (h & t & Hht & Hh).
    specialize (IH2 d Hs). rewrite Hht in *.
    rewrite has_double_space_cons, IH2, orb_false_r.
    destruct (c =? SP)%N eqn:Ec; [|reflexivity].
    destruct (h =? SP)%N eqn:Eh; [|reflexivity].
    apply N.eqb_eq in Eh. rewrite (Hh Eh) in Hcd. discriminate.
Qed.

Lemma replace_crlf_keeps (P : code_unit -> Prop) (s : jsstring) :
  P LF -> Forall P s -> Forall P (replace_crlf s).
Proof.
  intros HP.
  enough (Hboth : (Forall P s -> Forall P (replace_crlf s))
                  /\ forall c, Forall P (c :: s) -> Forall P (replace_crlf (c :: s)))
    by apply Hboth.
  induction s as [|d s [IH1 IH2]]; [now split|].
  split; [apply IH2|]. intros c Hall. rewrite replace_crlf_cons.
  inversion Hall as [|? ? Hc Hds]; subst.
  destruct ((c =? CR) && (d =? LF))%N.
  - constructor; [exact HP|]. apply IH1. now inversion Hds.
  - constructor; [exact Hc|]. now apply IH2.
Qed.

Lemma normalize_twice (text : jsstring) :
  normalize (normalize text) = replace_crlf (normalize text).
Proof.
  destruct (normalize_spaces_normal text) as [Hall Hd].
  set (n := normalize text) in *. unfold normalize at 1, collapse_spaces.
  assert (Hall' : Forall (fun c => c <> TAB /\ c <> NBSP /\ c <> FF /\ c <> VT)
                    (replace_crlf n))
    by (apply replace_crlf_keeps; [repeat split; discriminate|exact Hall]).
  rewrite (replace_char_fixed TAB), (replace_char_fixed NBSP);
    try (revert Hall'; apply Forall_impl; tauto).
  apply collapse_from_fixed; [|now apply replace_crlf_no_double_space|discriminate].
  revert Hall'. apply Forall_impl. tauto.
Qed.

(** ** Where the windows lie *)

Section WindowChain.

Variables (size ov L : Z).
Hypothesis ov_range : 0 <= ov < size.



Lemma windowed_covers :
  forall bs start p,
    windowed size ov L start bs -> start <= p < L ->
    Exists (fun w => fst w <= p < snd w) bs.
Proof.
  induction bs as [|[s e] bs IH]; intros start p; [intros []|].
  cbn [windowed]. intros (-> & -> & Hrest) Hp.
  destruct (Z.lt_ge_cases p (Z.min (start + size) L)) as [Hin|Hout].
  - left. simpl. lia.
  - right. destruct bs as [|w bs]; [lia|].
    destruct Hrest as [Hlt Hrest]. apply (IH _ p Hrest). lia.
Qed.

End WindowChain.


Lemma content_concat_chunks (xs : list jsstring) :
  content (concat (filter to_boolean (map trim xs))) = content (concat xs).
Proof.
  induction xs as [|x xs IH]; [reflexivity|].
  cbn [map filter concat]. rewrite content_app, <- IH, <- (content_trim x).
  unfold to_boolean. destruct (trim x); [reflexivity|].
  cbn [is_empty negb concat]. now rewrite content_app.
Qed.

Lemma replace_crlf_shorter (s : jsstring) :
  has_crlf s = true -> (length (replace_crlf s) < length s)%nat.
Proof.
  enough (Hboth :
    (has_crlf s = true -> (length (replace_crlf s) < length s)%nat)
    /\ forall c, has_crlf (c :: s) = true ->
                 (length (replace_crlf (c :: s)) < S (length s))%nat)
    by apply Hboth.
  induction s as [|d s [IH1 IH2]]; [split; [|intros c]; discriminate|].
  split; [apply IH2|]. intros c. rewrite has_crlf_cons, replace_crlf_cons.
  destruct ((c =? CR) && (d =? LF))%N; cbn [orb length].
  - intros _. assert (Hl := length_replace_crlf s). lia.
  - intros Hs. specialize (IH2 d Hs). lia.
Qed.

(** ** The chunks of a text, on integers *)

(** X1. A non-empty text whose normalization is no longer than a positive
    integer size is one window: [chunkText] returns its normalized and
    trimmed text as the only chunk, or no chunk when that is empty. *)
Theorem chunkText_short_text (fuel : nat) (c : code_unit) (text : jsstring)
    (opts : ChunkOptions Z) :
  0 < effective_size opts ->
  Z.of_nat (length (normalize (c :: text))) <= effective_size opts ->
  chunkText (S fuel) (Str (c :: text)) opts =
  Some (if is_empty (trim (normalize (c :: text))) then []
        else [trim (normalize (c :: text))]).
Proof.
  intros Hsize Hlen.
  rewrite chunkText_windowing_path by now apply Z.leb_gt.
  rewrite window_bounds_int_step. change (@of_int Z _ 0) with 0.
  assert (HL := normalize_length_pos c text).
  set (n := normalize (c :: text)) in *.
  destruct (Z.ltb_spec 0 (Z.of_nat (length n))); [|lia].
  rewrite Z.min_r by lia. rewrite Z.eqb_refl.
  cbn [map filter]. unfold window_text. cbn [fst snd to_integer IntNumber].
  rewrite slice_integers by lia.
  rewrite Z.sub_0_r, Nat2Z.id. change (Z.to_nat 0) with 0%nat.
  cbn [skipn]. rewrite firstn_all. unfold to_boolean.
  now destruct (is_empty (trim n)).
Qed.

Lemma chunkText_short_text_witness :
  0 < effective_size (options 1200 200)
  /\ Z.of_nat (length (normalize (js "  hello" ++ [TAB; TAB] ++ js "world " ++ [CR; LF])))
     <= effective_size (options 1200 200)
  /\ chunkText 1 (Str (js "  hello" ++ [TAB; TAB] ++ js "world " ++ [CR; LF]))
       (options 1200 200) = Some [js "hello world"].
Proof.
  split; [reflexivity|]. split; [discriminate|].
  exact (chunkText_short_text 0 32%N
           (js " hello" ++ [TAB; TAB] ++ js "world " ++ [CR; LF])
           (options 1200 200) eq_refl ltac:(discriminate)).
Defined.




Lemma firstn_skipn_middle {A : Type} (pre mid post : list A) :
  firstn (length mid) (skipn (length pre) (pre ++ mid ++ post)) = mid.
Proof.
  rewrite skipn_app, skipn_all, Nat.sub_diag. cbn [skipn app].
  rewrite firstn_app, firstn_all, Nat.sub_diag. cbn [firstn].
  apply app_nil_r.
Qed.

(** What [trim] leaves of a window is a run of the text, inside the
    window, that holds every position of the window whose code unit is
    not white space. *)
Lemma trimmed_window_run (n : jsstring) (w : Z * Z) :
  0 <= fst w <= snd w -> snd w <= Z.of_nat (length n) ->
  exists a b : nat,
    fst w <= Z.of_nat a /\ (a <= b)%nat /\ Z.of_nat b <= snd w
    /\ trim (window_text n w) = firstn (b - a) (skipn a n)
    /\ forall (p : nat) (d : code_unit),
         fst w <= Z.of_nat p < snd w -> nth_error n p = Some d ->
         is_white_space d = false -> (a <= p < b)%nat.
Proof.
  intros Hs He. unfold window_text. cbn [to_integer IntNumber].
  rewrite slice_integers by lia.
  set (s := Z.to_nat (fst w)). set (len := Z.to_nat (snd w - fst w)).
  set (x := firstn len (skipn s n)).
  assert (Hlen : length x = len).
  { unfold x. rewrite length_firstn, length_skipn. lia. }
  destruct (trim_split_ws x) as (pre & post & Hx & Hpre & Hpost).
  assert (Hsum : (length pre + length (trim x) + length post = len)%nat).
  { assert (Hl := f_equal (@length code_unit) Hx).
    rewrite !length_app in Hl. lia. }
  assert (Hn : n = (firstn s n ++ pre) ++ trim x ++ (post ++ skipn len (skipn s n))).
  { rewrite <- (firstn_skipn s n) at 1. rewrite <- app_assoc. f_equal.
    rewrite <- (firstn_skipn len (skipn s n)) at 1. fold x.
    rewrite Hx at 1. now rewrite <- !app_assoc. }
  assert (Hfirst : length (firstn s n) = s)
    by (rewrite length_firstn; lia).
  assert (Hpre' : length (firstn s n ++ pre) = (s + length pre)%nat)
    by (rewrite length_app; lia).
  exists (s + length pre)%nat, (s + length pre + length (trim x))%nat.
  split; [lia|]. split; [lia|]. split; [lia|]. split.
  - replace (s + length pre + length (trim x) - (s + length pre))%nat
      with (length (trim x)) by lia.
    rewrite <- Hpre'. rewrite Hn at 2. now rewrite firstn_skipn_middle.
  - intros p d Hp Hd Hws.
    rewrite Hn, <- app_assoc in Hd.
    rewrite nth_error_app2 in Hd by lia. rewrite Hfirst in Hd.
    destruct (Nat.lt_ge_cases (p - s) (length pre)) as [Hin|Hout].
    { rewrite nth_error_app1 in Hd by exact Hin.
      apply nth_error_In in Hd. rewrite Forall_forall in Hpre.
      rewrite (Hpre d Hd) in Hws. discriminate. }
    rewrite nth_error_app2 in Hd by exact Hout.
    destruct (Nat.lt_ge_cases (p - s - length pre) (length (trim x)))
      as [Hin|Hout']; [lia|].
    rewrite nth_error_app2 in Hd by exact Hout'.
    rewrite nth_error_app1 in Hd by lia.
    apply nth_error_In in Hd. rewrite Forall_forall in Hpost.
    rewrite (Hpost d Hd) in Hws. discriminate.
Qed.

(** X3. Under a positive integer size and an integer overlap, the chunks
    are the windows of the loop, each trimmed and the empty ones dropped,
    in the order of the windows; every position of the normalized text
    lies in a window; and what [trim] leaves of a window is a run of the
    normalized text, inside the window, that holds every position of the
    window whose code unit is not white space.  So no occurrence of such
    a code unit is lost: it is in the chunk of every window over it. *)
Theorem chunkText_keeps_occurrences (text : jsstring) (opts : ChunkOptions Z) :
  0 < effective_size opts ->
  exists bs : list (Z * Z),
    (forall extra : nat,
        window_bounds (S (length text + extra)) (normalize text)
          (effective_size opts) (effective_overlap opts) 0 = Some bs
        /\ chunkText (length text + extra) (Str text) opts =
           Some (filter to_boolean
                   (map (fun w => trim (window_text (normalize text) w)) bs)))
    /\ (forall p : nat,
           (p < length (normalize text))%nat ->
           Exists (fun w => fst w <= Z.of_nat p < snd w) bs)
    /\ Forall (fun w =>
         exists a b : nat,
           fst w <= Z.of_nat a /\ (a <= b)%nat /\ Z.of_nat b <= snd w
           /\ trim (window_text (normalize text) w) =
              firstn (b - a) (skipn a (normalize text))
           /\ forall (p : nat) (d : code_unit),
                fst w <= Z.of_nat p < snd w ->
                nth_error (normalize text) p = Some d ->
                is_white_space d = false -> (a <= p < b)%nat) bs.
Proof.
  intros Hsize. destruct text as [|c text].
  { exists []. split; [intros extra; split; reflexivity|].
    split; [intros p Hp; inversion Hp|constructor]. }
  destruct (chunkText_int_windows c text opts Hsize) as (bs & Hw & Hrun).
  assert (Hov : 0 <= effective_overlap opts < effective_size opts)
    by now apply clamp_overlap_int.
  assert (Hn := normalize_length_pos c text).
  exists bs. split; [|split].
  - intros extra. split; [|apply Hrun].
    replace (S (length (c :: text) + extra))
      with (length (c :: text) + S extra)%nat by lia.
    apply Hrun.
  - intros p Hp. apply (windowed_covers _ _ _ Hov bs 0 (Z.of_nat p) Hw). lia.
  - assert (Hrange := windowed_in_range _ _ _ Hov bs 0
                        (conj (Z.le_refl 0) Hn) Hw).
    revert Hrange. apply Forall_impl. intros w (Hs & He & _).
    apply trimmed_window_run; lia.
Qed.

Lemma chunkText_keeps_occurrences_witness :
  0 < effective_size (options 2 0)
  /\ chunkText 2 (Str (js "abab")) (options 2 0) = Some [js "ab"; js "ab"]
  /\ exists bs : list (Z * Z),
       (forall extra : nat,
           window_bounds (S (length (js "abab") + extra)) (normalize (js "abab"))
             (effective_size (options 2 0)) (effective_overlap (options 2 0)) 0 =
           Some bs
           /\ chunkText (length (js "abab") + extra) (Str (js "abab"))
                (options 2 0) =
              Some (filter to_boolean
                      (map (fun w => trim (window_text (normalize (js "abab")) w))
                         bs)))
       /\ (forall p : nat,
              (p < length (normalize (js "abab")))%nat ->
              Exists (fun w => fst w <= Z.of_nat p < snd w) bs)
       /\ Forall (fun w =>
            exists a b : nat,
              fst w <= Z.of_nat a /\ (a <= b)%nat /\ Z.of_nat b <= snd w
              /\ trim (window_text (normalize (js "abab")) w) =
                 firstn (b - a) (skipn a (normalize (js "abab")))
              /\ forall (p : nat) (d : code_unit),
                   fst w <= Z.of_nat p < snd w ->
                   nth_error (normalize (js "abab")) p = Some d ->
                   is_white_space d = false -> (a <= p < b)%nat) bs.
Proof.
  split; [reflexivity|]. split; [reflexivity|].
  exact (chunkText_keeps_occurrences (js "abab") (options 2 0) eq_refl).
Defined.



(** X5. Under a positive integer size, every returned chunk is a run of
    consecutive code units of the normalized text, holds no tab,
    non-breaking space, form feed or vertical tab and no two spaces in a
    row, and begins and ends with a code unit that is not white space. *)
Theorem chunk_shape (text : jsstring) (opts : ChunkOptions Z) :
  0 < effective_size opts ->
  exists chunks : list jsstring,
    (forall extra : nat,
        chunkText (length text + extra) (Str text) opts = Some chunks)
    /\ Forall (fun ch => substring_of ch (normalize text)
                         /\ spaces_normal ch
                         /\ is_white_space (hd SP ch) = false
                         /\ is_white_space (last ch SP) = false) chunks.
Proof.
  intros Hsize. destruct text as [|c text].
  { exists []. split; [reflexivity|constructor]. }
  destruct (chunkText_int_chunks c text opts Hsize) as (chunks & Hrun & Hall).
  exists chunks. split; [exact Hrun|].
  revert Hall. apply Forall_impl. intros ch (Hne & Htrim & Hsub & _).
  split; [exact Hsub|]. split.
  - eapply spaces_normal_substring; [exact Hsub|apply normalize_spaces_normal].
  - rewrite <- Htrim. apply trim_ends. now rewrite Htrim.
Qed.

Lemma chunk_shape_witness :
  0 < effective_size (options 4 1)
  /\ exists chunks : list jsstring,
       (forall extra : nat,
           chunkText (length (js "ab   cd  e") + extra) (Str (js "ab   cd  e"))
             (options 4 1) = Some chunks)
       /\ Forall (fun ch => substring_of ch (normalize (js "ab   cd  e"))
                            /\ spaces_normal ch
                            /\ is_white_space (hd SP ch) = false
                            /\ is_white_space (last ch SP) = false) chunks.
Proof.
  split; [reflexivity|].
  exact (chunk_shape (js "ab   cd  e") (options 4 1) eq_refl).
Defined.

(** X6. The four replacements change white space only: the code units of
    the text that are not white space are those of the normalized text,
    in the same order; the normalized text is no longer than the text, and
    is empty only if the text is. *)
Theorem normalize_keeps_content (text : jsstring) :
  content (normalize text) = content text
  /\ (length (normalize text) <= length text)%nat
  /\ (normalize text = [] <-> text = []).
Proof.
  split; [apply content_normalize|]. split; [apply length_normalize|].
  split; [|now intros ->].
  destruct text as [|c text]; [reflexivity|].
  intros Hn. now apply normalize_nonempty in Hn.
Qed.

(** X7. With overlap 0 and a positive integer size the chunks, put end to
    end, hold the code units of the text that are not white space, each
    once and in order: nothing is lost and nothing is repeated. *)
Theorem zero_overlap_chunks_content (text : jsstring) (sz : Z) :
  0 < sz ->
  exists chunks : list jsstring,
    (forall extra : nat,
        chunkText (length text + extra) (Str text) (options sz 0) = Some chunks)
    /\ content (concat chunks) = content text.
Proof.
  intros Hsz. destruct text as [|c text].
  { exists []. split; reflexivity. }
  assert (Hsize : 0 < effective_size (options sz 0)) by exact Hsz.
  assert (Hzero : effective_overlap (options sz 0) = 0)
    by now apply clamp_overlap_int_zero.
  destruct (chunkText_int_windows c text (options sz 0) Hsize)
    as (bs & Hw & Hrun).
  assert (Hn := normalize_length_pos c text).
  eexists. split; [intros extra; apply (Hrun extra)|].
  rewrite <- map_map, content_concat_chunks.
  rewrite Hzero in Hw.
  rewrite (windowed_concat _ sz Hsz bs 0); [apply content_normalize|lia|exact Hw].
Qed.

Lemma zero_overlap_chunks_content_witness :
  0 < 4
  /\ exists chunks : list jsstring,
       (forall extra : nat,
           chunkText (length (js "ab   cd  e") + extra) (Str (js "ab   cd  e"))
             (options 4 0) = Some chunks)
       /\ content (concat chunks) = content (js "ab   cd  e").
Proof.
  split; [reflexivity|].
  exact (zero_overlap_chunks_content (js "ab   cd  e") 4 eq_refl).
Defined.

(** X8. Normalizing a normalized text can only replace CR LF pairs that
    the first pass left (a CR before a CR LF): the second result is the
    first with its CR LF pairs replaced, and equals the first exactly when
    the first holds no CR LF. *)
Theorem normalize_again (text : jsstring) :
  normalize (normalize text) = replace_crlf (normalize text)
  /\ (normalize (normalize text) = normalize text
      <-> has_crlf (normalize text) = false).
Proof.
  split; [apply normalize_twice|]. rewrite normalize_twice. split.
  - intros Hfix. destruct (has_crlf (normalize text)) eqn:E; [|reflexivity].
    apply replace_crlf_shorter in E. rewrite Hfix in E. lia.
  - apply replace_crlf_fixed.
Qed.

(** * The import page *)

(** ** Suffixes *)




(** ** The choice of an extraction *)

Section ImportPageFacts.

Variable toLowerCase : jsstring -> jsstring.



End ImportPageFacts.


(** ** The name of a collection *)

Lemma collection_char_not_white (c : code_unit) :
  is_collection_char c = true -> is_white_space c = false.
Proof.
  intros Hc. apply not_true_is_false. revert Hc.
  unfold is_collection_char, is_white_space.
  rewrite !orb_true_iff, !andb_true_iff, !N.leb_le, !N.eqb_eq. lia.
Qed.

Lemma replace_runs_fixed (cls : code_unit -> bool) (by_ s : jsstring) :
  Forall (fun c => cls c = false) s ->
  forall b, replace_runs cls by_ b s = s.
Proof.
  induction 1 as [|c s Hc _ IH]; intros b; [reflexivity|].
  simpl. rewrite Hc. now rewrite IH.
Qed.

Lemma replace_runs_no_collection_char (s : jsstring) :
  Forall (fun c => is_collection_char c = false)
    (replace_runs is_white_space [UNDERSCORE] false s)
  <-> Forall (fun c => is_white_space c = false
                       /\ is_collection_char c = false) s.
Proof.
  induction s as [|c s IH]; [split; constructor|].
  cbn [replace_runs]. destruct (is_white_space c) eqn:E.
  - split; intros Hall; inversion Hall as [|? ? Hc _]; subst.
    + vm_compute in Hc. discriminate Hc.
    + destruct Hc as [Hc _]. congruence.
  - split; intros Hall; inversion Hall as [|? ? Hc Hs]; subst.
    + constructor; [now split|now apply IH].
    + constructor; [apply Hc|now apply IH].
Qed.

Lemma filter_nil_iff {A : Type} (f : A -> bool) (l : list A) :
  filter f l = [] <-> Forall (fun x => f x = false) l.
Proof.
  induction l as [|x l IH]; [split; constructor|]. simpl.
  destruct (f x) eqn:E.
  - split; [discriminate|]. intros Hall. inversion Hall; congruence.
  - rewrite IH. split; [now constructor|]. intros Hall. now inversion Hall.
Qed.

Lemma filter_fixed {A : Type} (f : A -> bool) (l : list A) :
  Forall (fun x => f x = true) l -> filter f l = l.
Proof.
  induction 1 as [|x l Hx _ IH]; [reflexivity|]. simpl. now rewrite Hx, IH.
Qed.

Lemma ascii_lower_fixed (s : jsstring) :
  Forall (fun c => is_collection_char c = true) s -> ascii_lower s = s.
Proof.
  unfold ascii_lower. induction 1 as [|c s Hc _ IH]; [reflexivity|].
  simpl. rewrite IH. f_equal.
  destruct ((65 <=? c) && (c <=? 90))%N eqn:E; [|reflexivity].
  exfalso. revert Hc E. unfold is_collection_char.
  rewrite !orb_true_iff, !andb_true_iff, !N.leb_le, !N.eqb_eq. lia.
Qed.

Section CollectionName.

Variable toLowerCase : jsstring -> jsstring.

Lemma sanitizedCollectionName_filtered (newProfessionalName : jsstring) :
  Forall (fun c => is_collection_char c = true)
    (sanitizedCollectionName toLowerCase newProfessionalName).
Proof.
  unfold sanitizedCollectionName.
  apply Forall_forall. intros c Hc. now apply filter_In in Hc.
Qed.

(** X11. For a typed name that passes the first test of
    [handleCreateProfessional], its trimming not being empty, and whatever
    [toLowerCase] does, the collection name holds only the code units a
    to z, 0 to 9 and the underscore; and it is empty, the case in which
    the handler throws "Invalid professional name", exactly when the
    lower-cased name holds no white space and none of these code units. *)
Theorem sanitizedCollectionName_chars (newProfessionalName : jsstring) :
  to_boolean (trim newProfessionalName) = true ->
  Forall (fun c => is_collection_char c = true)
    (sanitizedCollectionName toLowerCase newProfessionalName)
  /\ (sanitizedCollectionName toLowerCase newProfessionalName = []
      <-> Forall (fun c => is_white_space c = false
                           /\ is_collection_char c = false)
            (toLowerCase newProfessionalName)).
Proof.
  intros _. split; [apply sanitizedCollectionName_filtered|].
  unfold sanitizedCollectionName.
  etransitivity; [apply filter_nil_iff|].
  apply replace_runs_no_collection_char.
Qed.

(** X12. A collection name is its own collection name, when
    [toLowerCase] leaves strings of a to z, 0 to 9 and underscores as
    they are: typing the name of a collection gives that collection. *)
Theorem sanitizedCollectionName_idempotent (newProfessionalName : jsstring) :
  (forall s, Forall (fun c => is_collection_char c = true) s ->
             toLowerCase s = s) ->
  sanitizedCollectionName toLowerCase
    (sanitizedCollectionName toLowerCase newProfessionalName) =
  sanitizedCollectionName toLowerCase newProfessionalName.
Proof.
  intros Hlower.
  assert (Hall := sanitizedCollectionName_filtered newProfessionalName).
  set (s := sanitizedCollectionName toLowerCase newProfessionalName) in *.
  unfold sanitizedCollectionName at 1. rewrite (Hlower s Hall).
  rewrite replace_runs_fixed.
  - now apply filter_fixed.
  - revert Hall. apply Forall_impl. apply collection_char_not_white.
Qed.

End CollectionName.

Lemma sanitizedCollectionName_chars_witness :
  to_boolean (trim (js " C++ ")) = true
  /\ sanitizedCollectionName ascii_lower (js " C++ ") = js "_c_"
  /\ Forall (fun c => is_collection_char c = true)
       (sanitizedCollectionName ascii_lower (js " C++ "))
  /\ (sanitizedCollectionName ascii_lower (js " C++ ") = []
      <-> Forall (fun c => is_white_space c = false
                           /\ is_collection_char c = false)
            (ascii_lower (js " C++ "))).
Proof.
  split; [reflexivity|]. split; [reflexivity|].
  exact (sanitizedCollectionName_chars ascii_lower (js " C++ ") eq_refl).
Defined.

Lemma sanitizedCollectionName_idempotent_witness :
  (forall s, Forall (fun c => is_collection_char c = true) s ->
             ascii_lower s = s)
  /\ sanitizedCollectionName ascii_lower (js "Data  Science Advisor!") =
     js "data_science_advisor"
  /\ sanitizedCollectionName ascii_lower
       (sanitizedCollectionName ascii_lower (js "Data  Science Advisor!")) =
     sanitizedCollectionName ascii_lower (js "Data  Science Advisor!").
Proof.
  split; [exact ascii_lower_fixed|]. split; [reflexivity|].
  exact (sanitizedCollectionName_idempotent ascii_lower
           (js "Data  Science Advisor!") ascii_lower_fixed).
Defined.

(** ** The identifiers of the chunks *)

Lemma digits_inj (u v : Decimal.uint) : digits u = digits v -> u = v.
Proof.
  revert v. induction u as [|u IH|u IH|u IH|u IH|u IH|u IH|u IH|u IH|u IH|u IH];
    intros [|v|v|v|v|v|v|v|v|v|v]; simpl; intros Huv; try discriminate Huv;
    try reflexivity; injection Huv as Huv; f_equal; now apply IH.
Qed.

Lemma digits_alphanumeric (u : Decimal.uint) :
  Forall (fun c => is_alphanumeric c = true) (digits u).
Proof. induction u; simpl; constructor; auto. Qed.

Lemma number_to_string_inj (z z' : Z) :
  number_to_string z = number_to_string z' -> z = z'.
Proof.
  unfold number_to_string. intros Hzz.
  rewrite <- (DecimalZ.of_to z), <- (DecimalZ.of_to z'). f_equal.
  destruct (Z.to_int z) as [u|u], (Z.to_int z') as [v|v].
  - f_equal. now apply digits_inj.
  - destruct u; discriminate Hzz.
  - destruct v; discriminate Hzz.
  - injection Hzz as Hzz. f_equal. now apply digits_inj.
Qed.

Lemma number_to_string_no_underscore (z : Z) :
  Forall (fun c => c <> UNDERSCORE) (number_to_string z).
Proof.
  assert (Hd : forall u, Forall (fun c => c <> UNDERSCORE) (digits u)).
  { intros u. generalize (digits_alphanumeric u). apply Forall_impl.
    intros c Hc ->. discriminate Hc. }
  unfold number_to_string. destruct (Z.to_int z); [apply Hd|].
  constructor; [discriminate|apply Hd].
Qed.

Lemma split_at_first_underscore (a b x y : jsstring) :
  Forall (fun c => c <> UNDERSCORE) a -> Forall (fun c => c <> UNDERSCORE) b ->
  a ++ UNDERSCORE :: x = b ++ UNDERSCORE :: y -> a = b /\ x = y.
Proof.
  intros Ha. revert b. induction Ha as [|c a Hc _ IH]; intros b Hb.
  - destruct Hb as [|d b Hd _]; simpl; intros [= Hxy]; [now split|congruence].
  - destruct Hb as [|d b Hd Hb]; simpl; intros [= Hcd Hxy]; [congruence|].
    destruct (IH b Hb Hxy) as [-> ->]. now subst.
Qed.

(** Two strings cut at their last underscore. *)
Lemma split_at_last_underscore (x y a b : jsstring) :
  Forall (fun c => c <> UNDERSCORE) a -> Forall (fun c => c <> UNDERSCORE) b ->
  x ++ [UNDERSCORE] ++ a = y ++ [UNDERSCORE] ++ b -> x = y /\ a = b.
Proof.
  intros Ha Hb Hxy. apply (f_equal (@rev _)) in Hxy.
  rewrite !rev_app_distr in Hxy. cbn [rev app] in Hxy.
  rewrite <- !app_assoc in Hxy. cbn [app] in Hxy.
  apply split_at_first_underscore in Hxy as [Hab Hxy];
    [|now apply Forall_rev..].
  split; apply rev_inj; assumption.
Qed.

Lemma sanitize_file_name_chars (fileName : jsstring) :
  Forall (fun c => is_alphanumeric c = true \/ c = UNDERSCORE)
    (sanitize_file_name fileName).
Proof.
  unfold sanitize_file_name. apply Forall_map, Forall_forall. intros c _.
  destruct (is_alphanumeric c) eqn:E; auto.
Qed.

Lemma generateChunkId_inj (a b : jsstring) (i j t u : Z) :
  generateChunkId a i t = generateChunkId b j u ->
  sanitize_file_name a = sanitize_file_name b /\ i = j /\ t = u.
Proof.
  unfold generateChunkId. intros Hid.
  rewrite !(app_assoc _ (js "_chunk_")), !(app_assoc _ (number_to_string _)) in Hid.
  apply split_at_last_underscore in Hid as [Hid Ht];
    [|apply number_to_string_no_underscore..].
  change (js "_chunk_") with (js "_chunk" ++ [UNDERSCORE]) in Hid.
  rewrite <- !app_assoc in Hid.
  rewrite !(app_assoc _ (js "_chunk")) in Hid.
  apply split_at_last_underscore in Hid as [Hid Hi];
    [|apply number_to_string_no_underscore..].
  apply app_inv_tail in Hid.
  split; [exact Hid|]. split; now apply number_to_string_inj.
Qed.

(** X13. Two identifiers made by [generateChunkId] are equal exactly
    when the chunk indexes are equal, the times read are equal, and the
    file names are equal once every code unit that is not a letter or a
    digit is replaced by an underscore: an identifier can be read back
    from its end. *)
Theorem generateChunkId_equal_iff (a b : jsstring) (i j t u : Z) :
  generateChunkId a i t = generateChunkId b j u
  <-> sanitize_file_name a = sanitize_file_name b /\ i = j /\ t = u.
Proof.
  split; [apply generateChunkId_inj|].
  intros (Hab & -> & ->). unfold generateChunkId. now rewrite Hab.
Qed.

(** X14. The identifiers that [handleUpload] sends with the chunks of a
    file are as many as the chunks and pairwise different, whatever the
    times read while they are made. *)
Theorem chunk_ids_distinct (fileName : jsstring) (chunks : list jsstring)
    (clock : nat -> Z) :
  length (chunk_ids fileName chunks clock) = length chunks
  /\ NoDup (chunk_ids fileName chunks clock).
Proof.
  unfold chunk_ids. split; [now rewrite length_map, length_seq|].
  generalize (seq_NoDup (length chunks) 0).
  generalize (seq 0 (length chunks)). intros l.
  induction 1 as [|idx l Hidx _ IH]; simpl; constructor; [|exact IH].
  intros Hin. apply in_map_iff in Hin as (idx' & Heq & Hin).
  apply generateChunkId_inj in Heq as (_ & Heq & _).
  apply Nat2Z.inj in Heq. now subst.
Qed.

(** X15. With a chunk index and a time that are not negative, every code
    unit of an identifier is a letter a to z or A to Z, a digit, or an
    underscore. *)
Theorem generateChunkId_chars (fileName : jsstring) (chunkIndex timestamp : Z) :
  0 <= chunkIndex -> 0 <= timestamp ->
  Forall (fun c => is_alphanumeric c = true \/ c = UNDERSCORE)
    (generateChunkId fileName chunkIndex timestamp).
Proof.
  intros Hi Ht.
  assert (Hnum : forall z, 0 <= z ->
            Forall (fun c => is_alphanumeric c = true \/ c = UNDERSCORE)
              (number_to_string z)).
  { intros [|p|p] Hz; [| |lia]; unfold number_to_string, Z.to_int;
      (eapply Forall_impl; [|apply digits_alphanumeric]); auto. }
  unfold generateChunkId.
  apply Forall_app. split; [apply sanitize_file_name_chars|].
  apply Forall_app. split; [repeat constructor; now left|].
  apply Forall_app. split; [now apply Hnum|].
  apply Forall_app. split; [repeat constructor; now right|now apply Hnum].
Qed.

Lemma generateChunkId_chars_witness :
  0 <= 3 /\ 0 <= 1762041600000
  /\ generateChunkId (js "My report (v2).pdf") 3 1762041600000 =
     js "My_report__v2__pdf_chunk_3_1762041600000"
  /\ Forall (fun c => is_alphanumeric c = true \/ c = UNDERSCORE)
       (generateChunkId (js "My report (v2).pdf") 3 1762041600000).
Proof.
  split; [discriminate|]. split; [discriminate|]. split; [reflexivity|].
  apply (generateChunkId_chars (js "My report (v2).pdf") 3 1762041600000);
    discriminate.
Defined.

(** ** The chunks that [onDrop] makes *)

